(** * volume-scheduler: the scheduling framework's status model, cycle state
      and plugin driver

    A shallow embedding of [framework/interface.go] (plugin interfaces),
    the status file of package [framework] ([Code], [Status],
    [PluginToStatus.Merge]), the cycle-state file ([CycleState]) and the
    driver of package [runtime] ([Framework] and its [Run...Plugins]
    operations), followed by the properties proved about them. *)

From Stdlib Require Import ZArith.
From stdpp Require Import gmap strings list fin_maps.

(** ** Results of operations that can panic

    A method called through a nil pointer that reads a field panics in Go.
    Such operations return a [Result]. *)

Inductive Result (A : Type) : Type :=
| Ok (a : A)
| Panic.
Arguments Ok {A} a.
Arguments Panic {A}.

#[global] Instance Result_ret : MRet Result := @Ok.
#[global] Instance Result_bind : MBind Result :=
  fun A B f r => match r with Ok a => f a | Panic => Panic end.

(** Code that also reads and writes a store of type [S]. *)
Definition ST (S A : Type) : Type := S → Result (A * S).

#[global] Instance ST_ret {S} : MRet (ST S) := fun A a σ => Ok (a, σ).
#[global] Instance ST_bind {S} : MBind (ST S) :=
  fun A B f m σ => match m σ with Ok (a, σ') => f a σ' | Panic => Panic end.

(** A step that cannot touch the store. *)
Definition pure_step {S A} (r : Result A) : ST S A :=
  fun σ => match r with Ok a => Ok (a, σ) | Panic => Panic end.

(** ** What the code takes from outside the repository

    The resource types of the imported API packages, the execution context,
    everything a plugin implementation can read and change when it is
    called ([World]: its own state, the cycle states, the cluster), and the
    quoting that [fmt]'s [%q] verb applies to a string. *)
Class Externals : Type := {
  context_Context : Type;
  StorageVolume : Type;
  StoragePool : Type;
  ObjectReference : Type;
  World : Type;
  strconv_Quote : string → string
}.

(** ** Package framework *)

Module framework.

(** Values of Go's [error] interface as this code base builds them:
    [errors.New(msg)], and [fmt.Errorf] with a [%w] verb, which keeps the
    formatted message and the wrapped cause. A nil [error] is [None] of
    [option GoError]. *)
Inductive GoError : Type :=
| errorString (s : string)
| wrapError (msg : string) (cause : GoError).

Definition errors_New (message : string) : GoError := errorString message.

Definition error_Error (e : GoError) : string :=
  match e with
  | errorString s => s
  | wrapError msg _ => msg
  end.

(** [strings.Join(elems, sep)]. *)
Fixpoint strings_Join (elems : list string) (sep : string) : string :=
  match elems with
  | [] => ""
  | [x] => x
  | x :: rest => x +:+ sep +:+ strings_Join rest sep
  end.

(** [type Code int] with its five [iota] constants. Any other integer is a
    [Code] for Go's type system as well. *)
Abbreviation Code := Z (only parsing).

Definition Success : Code := 0.
Definition Error : Code := 1.
Definition Unschedulable : Code := 2.
Definition Wait : Code := 3.
Definition Skip : Code := 4.

(** [var statusPrecedence = map[Code]int{...}]: three entries. *)
Definition statusPrecedence : gmap Z Z :=
  <[Error := 2%Z]> (<[Unschedulable := 1%Z]> (<[Success := (-1)%Z]> ∅)).

(** [statusPrecedence[c]]: a key that is not in a Go map reads as the zero
    value. *)
Definition precedence (c : Code) : Z := default 0%Z (statusPrecedence !! c).

(** [type Status struct]. A [*Status] is an [option Status]; nil is [None]. *)
Record Status : Type := mkStatus {
  code : Code;
  reasons : list string;
  err : option GoError;
  pluginName : string
}.

Definition Status_Code (s : option Status) : Code :=
  match s with
  | None => Success
  | Some s => code s
  end.

Definition Message (s : option Status) : string :=
  match s with
  | None => ""
  | Some s => strings_Join (reasons s) ", "
  end.

Definition SetPluginName (s : option Status) (plugin : string) : Result Status :=
  match s with
  | None => Panic
  | Some s => Ok (mkStatus (code s) (reasons s) (err s) plugin)
  end.

Definition WithPluginName (s : option Status) (plugin : string) : Result Status :=
  SetPluginName s plugin.

Definition PluginName (s : option Status) : Result string :=
  match s with
  | None => Panic
  | Some s => Ok (pluginName s)
  end.

Definition Reasons (s : option Status) : Result (list string) :=
  match s with
  | None => Panic
  | Some s => Ok (reasons s)
  end.

Definition AppendReason (s : Status) (reason : string) : Status :=
  mkStatus (code s) (reasons s ++ [reason]) (err s) (pluginName s).

Definition IsSuccess (s : option Status) : bool :=
  bool_decide (Status_Code s = Success).

Definition IsUnschedulable (s : option Status) : bool :=
  let code := Status_Code s in
  bool_decide (code = Unschedulable).

Definition AsError (s : option Status) : option GoError :=
  if IsSuccess s then None
  else match s with
       | None => None
       | Some s' =>
           match err s' with
           | Some e => Some e
           | None => Some (errors_New (Message s))
           end
       end.

Definition NewStatus (code : Code) (reasons : list string) : Status :=
  let s := mkStatus code reasons None "" in
  if bool_decide (code = Error)
  then mkStatus code reasons (Some (errors_New (Message (Some s)))) ""
  else s.

Definition AsStatus (err : GoError) : Status :=
  mkStatus Error [error_Error err] (Some err) "".

(** [AsStatus(err)] called with an [error] that may be nil: [err.Error()]
    on a nil [error] panics. *)
Definition AsStatus_nilable (err : option GoError) : Result Status :=
  match err with
  | Some e => Ok (AsStatus e)
  | None => Panic
  end.

(** [type PluginToStatus map[string]*Status]. *)
Abbreviation PluginToStatus := (gmap string (option Status)) (only parsing).

(** Go leaves the order in which [range] visits a map unspecified: any
    enumeration of the entries, each once, is an order of the loop. *)
Definition range_order {V : Type} (p : gmap string V)
    (order : list (string * V)) : Prop :=
  order ≡ₚ map_to_list p.

(** One turn of the loop of [Merge] on the member [s]. Reading [s.reasons]
    (and [s.PluginName()]) through a nil [s] panics. *)
Definition Merge_body (finalStatus : Status) (s : option Status)
    : Result Status :=
  let finalStatus :=
    if bool_decide (Status_Code s = Error)
    then mkStatus (code finalStatus) (reasons finalStatus) (AsError s)
                  (pluginName finalStatus)
    else finalStatus in
  finalStatus ←
    (if bool_decide (precedence (Status_Code s) > precedence (code finalStatus))%Z
     then name ← PluginName s;
          mret (mkStatus (Status_Code s) (reasons finalStatus)
                         (err finalStatus) name)
     else mret finalStatus);
  rs ← Reasons s;
  mret (foldl AppendReason finalStatus rs).

Fixpoint Merge_loop (finalStatus : Status)
    (order : list (string * option Status)) : Result Status :=
  match order with
  | [] => mret finalStatus
  | (_, s) :: rest =>
      finalStatus ← Merge_body finalStatus s;
      Merge_loop finalStatus rest
  end.

(** [func (p PluginToStatus) Merge() *Status], with [order] the order in
    which the loop visits [p]. *)
Definition Merge (p : PluginToStatus)
    (order : list (string * option Status)) : Result (option Status) :=
  if bool_decide (size p = 0) then mret None
  else
    let finalStatus := NewStatus Success [] in
    finalStatus ← Merge_loop finalStatus order;
    mret (Some finalStatus).

(** *** Cycle state *)

Definition ErrNotFound : GoError := errors_New "not found".

(** [type StateData interface { Clone() StateData }]. *)
Class StateData (D : Type) : Type := StateData_Clone : D → D.

Abbreviation StateKey := string (only parsing).

(** [type CycleState struct]. The lock [mx] orders concurrent callers and
    holds no data; the operations below are the bodies run under it. *)
Record CycleState (D : Type) : Type := mkCycleState {
  storage : gmap string D
}.
Arguments mkCycleState {D} storage.
Arguments storage {D} c.

(** The store of the operations below is the heap of the cycle states the
    program has allocated, by address. A [*CycleState] is an [option nat];
    nil is [None]. *)
Section CycleStateOps.
Context {D : Type} `{!StateData D}.

Definition NewCycleState : ST (gmap nat (CycleState D)) (option nat) :=
  fun h =>
    let a := fresh (dom h) in
    Ok (Some a, <[a := mkCycleState ∅]> h).

(** The struct behind a pointer; a nil pointer panics. *)
Definition deref (c : option nat) : ST (gmap nat (CycleState D)) (nat * CycleState D) :=
  fun h =>
    match c with
    | None => Panic
    | Some a => match h !! a with
                | Some cs => Ok ((a, cs), h)
                | None => Panic
                end
    end.

Definition Read (c : option nat) (key : StateKey)
    : ST (gmap nat (CycleState D)) (option D * option GoError) :=
  fun h =>
    match deref c h with
    | Ok ((_, cs), h) =>
        match storage cs !! key with
        | Some v => Ok ((Some v, None), h)
        | None => Ok ((None, Some ErrNotFound), h)
        end
    | Panic => Panic
    end.

Definition Write (c : option nat) (key : StateKey) (val : D)
    : ST (gmap nat (CycleState D)) unit :=
  fun h =>
    match deref c h with
    | Ok ((a, cs), h) =>
        Ok (tt, <[a := mkCycleState (<[key := val]> (storage cs))]> h)
    | Panic => Panic
    end.

Definition Delete (c : option nat) (key : StateKey)
    : ST (gmap nat (CycleState D)) unit :=
  fun h =>
    match deref c h with
    | Ok ((a, cs), h) =>
        Ok (tt, <[a := mkCycleState (delete key (storage cs))]> h)
    | Panic => Panic
    end.

(** The loop of [Clone] over [c.storage], visited in [order]. *)
Fixpoint Clone_loop (copy : option nat) (order : list (string * D))
    : ST (gmap nat (CycleState D)) unit :=
  match order with
  | [] => mret tt
  | (k, v) :: rest =>
      Write copy k (StateData_Clone v);;
      Clone_loop copy rest
  end.

Definition Clone (c : option nat) (order : list (string * D))
    : ST (gmap nat (CycleState D)) (option nat) :=
  match c with
  | None => mret None
  | Some _ =>
      copy ← NewCycleState;
      Clone_loop copy order;;
      mret copy
  end.

End CycleStateOps.

(** *** Plugin interfaces and score structures *)

Record VolumeInfo `{Externals} : Type := { Volume : option StorageVolume }.
Record PoolInfo `{Externals} : Type := { Pool : option StoragePool }.

Record PoolScore : Type := mkPoolScore {
  PoolScore_Name : string;
  PoolScore_Score : Z
}.

Abbreviation PoolScoreList := (list PoolScore) (only parsing).
Abbreviation PluginToPoolScores := (gmap string (list PoolScore)) (only parsing).

(** [type Plugin interface { Name() string }]. *)
Class Plugin (P : Type) : Type := Name : P → string.

Section Plugins.
Context `{Externals}.

(** A plugin is the table of its methods. A method receives its
    arguments and the world, and returns its results and the world it
    leaves. *)
Record PreFilterPlugin : Type := {
  PreFilterPlugin_Name : string;
  PreFilter : context_Context → option nat → StorageVolume →
              World → option Status * World
}.

Record FilterPlugin : Type := {
  FilterPlugin_Name : string;
  Filter : context_Context → option nat → StorageVolume → option PoolInfo →
           World → option Status * World
}.

Record ScorePlugin : Type := {
  ScorePlugin_Name : string;
  Score : context_Context → option nat → StorageVolume →
          ObjectReference → ObjectReference →
          World → (Z * option Status) * World
}.

Record ReservePlugin : Type := {
  ReservePlugin_Name : string;
  Reserve : context_Context → option nat → StorageVolume →
            ObjectReference → ObjectReference →
            World → option Status * World;
  Unreserve : context_Context → option nat → StorageVolume →
              ObjectReference → ObjectReference → World → World
}.

Record BindPlugin : Type := {
  BindPlugin_Name : string;
  Bind : context_Context → option nat → StorageVolume →
         ObjectReference → ObjectReference →
         World → option Status * World
}.

#[global] Instance PreFilterPlugin_Plugin : Plugin PreFilterPlugin :=
  PreFilterPlugin_Name.
#[global] Instance FilterPlugin_Plugin : Plugin FilterPlugin :=
  FilterPlugin_Name.
#[global] Instance ScorePlugin_Plugin : Plugin ScorePlugin :=
  ScorePlugin_Name.
#[global] Instance ReservePlugin_Plugin : Plugin ReservePlugin :=
  ReservePlugin_Name.
#[global] Instance BindPlugin_Plugin : Plugin BindPlugin :=
  BindPlugin_Name.

(** [PostFilterPlugin]. The interface declares a fourth parameter,
    [filteredPoolStatusMap]; the call in the driver leaves it out (it is
    inside a comment there), and the method is taken as the driver calls
    it. *)
Record PostFilterPlugin : Type := {
  PostFilterPlugin_Name : string;
  PostFilter : context_Context → option nat → StorageVolume →
               World → (string * option Status) * World
}.

Record PreScorePlugin : Type := {
  PreScorePlugin_Name : string;
  PreScore : context_Context → option nat → StorageVolume →
             list StoragePool → World → option Status * World
}.

Record PreBindPlugin : Type := {
  PreBindPlugin_Name : string;
  PreBind : context_Context → option nat → StorageVolume →
            ObjectReference → ObjectReference →
            World → option Status * World
}.

Record PostBindPlugin : Type := {
  PostBindPlugin_Name : string;
  PostBind : context_Context → option nat → StorageVolume →
             ObjectReference → ObjectReference → World → World
}.

#[global] Instance PostFilterPlugin_Plugin : Plugin PostFilterPlugin :=
  PostFilterPlugin_Name.
#[global] Instance PreScorePlugin_Plugin : Plugin PreScorePlugin :=
  PreScorePlugin_Name.
#[global] Instance PreBindPlugin_Plugin : Plugin PreBindPlugin :=
  PreBindPlugin_Name.
#[global] Instance PostBindPlugin_Plugin : Plugin PostBindPlugin :=
  PostBindPlugin_Name.

End Plugins.

End framework.

(** ** Package runtime: the framework driver *)

Module runtime.
Import framework.

(** The plugin methods of the extension points modelled here. *)
Inductive Method : Type :=
| PreFilterMethod
| FilterMethod
| ScoreMethod
| ReserveMethod
| UnreserveMethod
| BindMethod.

(** One call of a plugin method by the driver: the method and the name of
    the plugin it was called on. *)
Record Call : Type := mkCall {
  call_method : Method;
  call_plugin : string
}.

Section Driver.
Context `{Externals}.

(** [fmt.Errorf(before + "%q" + after + "%w", name, err)]. With a nil
    operand the [%w] verb prints as a bad verb and nothing is wrapped. *)
Definition fmt_Errorf (before after : string) (name : string)
    (err : option GoError) : GoError :=
  match err with
  | Some e =>
      wrapError (before +:+ strconv_Quote name +:+ after +:+ error_Error e) e
  | None =>
      errorString (before +:+ strconv_Quote name +:+ after +:+ "%!w(<nil>)")
  end.

(** What a run of the driver reads and leaves: the world of the plugins,
    and the record of the plugin calls made so far (oldest first). The
    record is not data of the program; it is kept to state which calls
    a run makes, and in which order. *)
Record DriverState : Type := mkDriverState {
  world : World;
  calls : list Call
}.

(** A call of a plugin method. *)
Definition invoke {A : Type} (m : Method) (plugin : string)
    (body : World → A * World) : ST DriverState A :=
  fun σ =>
    let '(a, w) := body (world σ) in
    Ok (a, mkDriverState w (calls σ ++ [mkCall m plugin])).

(** [type Framework struct], with the plugin lists of the extension
    points modelled here. *)
Record Framework : Type := {
  preFilterPlugins : list PreFilterPlugin;
  filterPlugins : list FilterPlugin;
  scorePlugins : list ScorePlugin;
  reservePlugins : list ReservePlugin;
  bindPlugins : list BindPlugin
}.

Section Cycle.
Variable ctx : context_Context.
Variable state : option nat.
Variable volume : StorageVolume.

Definition runPreFilterPlugin (pl : PreFilterPlugin)
    : ST DriverState (option Status) :=
  invoke PreFilterMethod (Name pl) (PreFilter pl ctx state volume).

Fixpoint RunPreFilterPlugins_range (pls : list PreFilterPlugin)
    : ST DriverState (option Status) :=
  match pls with
  | [] => mret None
  | pl :: rest =>
      status ← runPreFilterPlugin pl;
      if negb (IsSuccess status) then
        status ← pure_step (SetPluginName status (Name pl));
        if IsUnschedulable (Some status) then mret (Some status)
        else
          wrapped ← pure_step (WithPluginName
            (Some (AsStatus (fmt_Errorf "running PreFilter plugin " ": "
                               (Name pl) (AsError (Some status)))))
            (Name pl));
          mret (Some wrapped)
      else RunPreFilterPlugins_range rest
  end.

Definition RunPreFilterPlugins (f : Framework)
    : ST DriverState (option Status) :=
  RunPreFilterPlugins_range (preFilterPlugins f).

Definition runFilterPlugin (pl : FilterPlugin) (poolInfo : option PoolInfo)
    : ST DriverState (option Status) :=
  invoke FilterMethod (Name pl) (Filter pl ctx state volume poolInfo).

Fixpoint RunFilterPlugins_range (poolInfo : option PoolInfo)
    (statuses : gmap string (option Status)) (pls : list FilterPlugin)
    : ST DriverState (gmap string (option Status)) :=
  match pls with
  | [] => mret statuses
  | pl :: rest =>
      pluginStatus ← runFilterPlugin pl poolInfo;
      if negb (IsSuccess pluginStatus) then
        if negb (IsUnschedulable pluginStatus) then
          errStatus ← pure_step (WithPluginName
            (Some (AsStatus (fmt_Errorf "running " " filter plugin: "
                               (Name pl) (AsError pluginStatus))))
            (Name pl));
          mret {[ Name pl := Some errStatus ]}
        else
          pluginStatus ← pure_step (SetPluginName pluginStatus (Name pl));
          RunFilterPlugins_range poolInfo
            (<[Name pl := Some pluginStatus]> statuses) rest
      else RunFilterPlugins_range poolInfo statuses rest
  end.

Definition RunFilterPlugins (f : Framework) (poolInfo : option PoolInfo)
    : ST DriverState (gmap string (option Status)) :=
  RunFilterPlugins_range poolInfo ∅ (filterPlugins f).

(** [make(framework.PoolScoreList, n)]: [n] zero values. *)
Definition make_PoolScoreList (n : nat) : list PoolScore :=
  replicate n (mkPoolScore "" 0%Z).

(** Declared by the source, and called by nothing in it. *)
Definition runScorePlugin (pl : ScorePlugin) (pool cohort : ObjectReference)
    : ST DriverState (Z * option Status) :=
  invoke ScoreMethod (Name pl) (Score pl ctx state volume pool cohort).

Variable pool cohort : ObjectReference.

Definition runReservePluginReserve (pl : ReservePlugin)
    : ST DriverState (option Status) :=
  invoke ReserveMethod (Name pl) (Reserve pl ctx state volume pool cohort).

(** The call of [klog.ErrorS] writes a log line and changes nothing the
    driver returns; it is left out here and in [RunBindPlugins]. *)
Fixpoint RunReservePluginsReserve_range (pls : list ReservePlugin)
    : ST DriverState (option Status) :=
  match pls with
  | [] => mret None
  | pl :: rest =>
      status ← runReservePluginReserve pl;
      if negb (IsSuccess status) then
        let err := AsError status in
        mret (Some (AsStatus (fmt_Errorf "running Reserve plugin " ": "
                                (Name pl) err)))
      else RunReservePluginsReserve_range rest
  end.

Definition RunReservePluginsReserve (f : Framework)
    : ST DriverState (option Status) :=
  RunReservePluginsReserve_range (reservePlugins f).

Definition runReservePluginUnreserve (pl : ReservePlugin)
    : ST DriverState unit :=
  invoke UnreserveMethod (Name pl)
    (fun w => (tt, Unreserve pl ctx state volume pool cohort w)).

(** [for i := len(f.reservePlugins) - 1; i >= 0; i--], entered with
    [n = i + 1]. Indexing a slice out of its range panics. *)
Fixpoint RunReservePluginsUnreserve_from (f : Framework) (n : nat)
    : ST DriverState unit :=
  match n with
  | O => mret tt
  | S i =>
      match reservePlugins f !! i with
      | Some pl => runReservePluginUnreserve pl
      | None => fun _ => Panic
      end;;
      RunReservePluginsUnreserve_from f i
  end.

Definition RunReservePluginsUnreserve (f : Framework)
    : ST DriverState unit :=
  RunReservePluginsUnreserve_from f (length (reservePlugins f)).

Definition runBindPlugin (bp : BindPlugin)
    : ST DriverState (option Status) :=
  invoke BindMethod (Name bp) (Bind bp ctx state volume pool cohort).

(** The loop of [RunBindPlugins]; [status] is the named result, which
    the final [return status] hands back when the loop runs out. *)
Fixpoint RunBindPlugins_range (status : option Status)
    (bps : list BindPlugin) : ST DriverState (option Status) :=
  match bps with
  | [] => mret status
  | bp :: rest =>
      status ← runBindPlugin bp;
      if (match status with Some _ => true | None => false end)
           && bool_decide (Status_Code status = Skip)
      then RunBindPlugins_range status rest
      else if negb (IsSuccess status) then
        let err := AsError status in
        mret (Some (AsStatus (fmt_Errorf "running Bind plugin " ": "
                                (Name bp) err)))
      else mret status
  end.

Definition RunBindPlugins (f : Framework)
    : ST DriverState (option Status) :=
  if bool_decide (length (bindPlugins f) = 0)
  then mret (Some (NewStatus Skip [""]))
  else RunBindPlugins_range None (bindPlugins f).

End Cycle.

(** The body of [RunScorePlugins] is its first loop and the final
    [return]; the rest of the function is inside a comment, so its
    arguments [ctx], [state] and [volume] are not used. *)
Definition RunScorePlugins (ctx : context_Context) (state : option nat)
    (volume : StorageVolume) (f : Framework) (pools : list StoragePool)
    : ST DriverState (gmap string (list PoolScore) * option Status) :=
  let pluginToPoolScores :=
    foldl (fun (m : gmap string (list PoolScore)) (pl : ScorePlugin) =>
             <[Name pl := make_PoolScoreList (length pools)]> m)
          ∅ (scorePlugins f) in
  mret (pluginToPoolScores, None).

End Driver.

(** *** The other extension points

    The operations below are modelled on the world of the plugins alone:
    which plugins a run has called, and in which order, shows in the world
    it leaves. *)

Section OtherExtensionPoints.
Context `{Externals}.

(** The plugin lists of [type Framework struct] that [Framework] above
    leaves out and that a function of the source reads. *)
Record OtherPlugins : Type := {
  postFilterPlugins : list PostFilterPlugin;
  preScorePlugins : list PreScorePlugin;
  preBindPlugins : list PreBindPlugin;
  postBindPlugins : list PostBindPlugin
}.

(** A call of a plugin method. *)
Definition call {A : Type} (body : World → A * World) : ST World A :=
  fun w => Ok (body w).

Section OtherCycle.
Variable ctx : context_Context.
Variable state : option nat.
Variable volume : StorageVolume.

(** The order in which [range] visits each map, for the loop of [Merge]
    that [RunPostFilterPlugins] ends with. *)
Variable range_of :
  gmap string (option Status) → list (string * option Status).

Definition runPostFilterPlugin (pl : PostFilterPlugin)
    : ST World (string * option Status) :=
  call (PostFilter pl ctx state volume).

Fixpoint RunPostFilterPlugins_range (statuses : gmap string (option Status))
    (pls : list PostFilterPlugin) : ST World (string * option Status) :=
  match pls with
  | [] =>
      merged ← pure_step (Merge statuses (range_of statuses));
      mret ("", merged)
  | pl :: rest =>
      rs ← runPostFilterPlugin pl;
      let r := rs.1 in
      let s := rs.2 in
      if IsSuccess s then mret (r, s)
      else if negb (IsUnschedulable s) then
        errStatus ← pure_step (AsStatus_nilable (AsError s));
        mret ("", Some errStatus)
      else RunPostFilterPlugins_range (<[Name pl := s]> statuses) rest
  end.

Definition RunPostFilterPlugins (f : OtherPlugins)
    : ST World (string * option Status) :=
  RunPostFilterPlugins_range ∅ (postFilterPlugins f).

Definition runPreScorePlugin (pl : PreScorePlugin) (pools : list StoragePool)
    : ST World (option Status) :=
  call (PreScore pl ctx state volume pools).

Fixpoint RunPreScorePlugins_range (pools : list StoragePool)
    (pls : list PreScorePlugin) : ST World (option Status) :=
  match pls with
  | [] => mret None
  | pl :: rest =>
      status ← runPreScorePlugin pl pools;
      if negb (IsSuccess status) then
        mret (Some (AsStatus (fmt_Errorf "running PreScore plugin " ": "
                                (Name pl) (AsError status))))
      else RunPreScorePlugins_range pools rest
  end.

Definition RunPreScorePlugins (f : OtherPlugins) (pools : list StoragePool)
    : ST World (option Status) :=
  RunPreScorePlugins_range pools (preScorePlugins f).

Variable pool cohort : ObjectReference.

Definition runPreBindPlugin (pl : PreBindPlugin) : ST World (option Status) :=
  call (PreBind pl ctx state volume pool cohort).

(** As in [RunReservePluginsReserve], the call of [klog.ErrorS] is left
    out. *)
Fixpoint RunPreBindPlugins_range (pls : list PreBindPlugin)
    : ST World (option Status) :=
  match pls with
  | [] => mret None
  | pl :: rest =>
      status ← runPreBindPlugin pl;
      if negb (IsSuccess status) then
        let err := AsError status in
        mret (Some (AsStatus (fmt_Errorf "running PreBind plugin " ": "
                                (Name pl) err)))
      else RunPreBindPlugins_range rest
  end.

Definition RunPreBindPlugins (f : OtherPlugins) : ST World (option Status) :=
  RunPreBindPlugins_range (preBindPlugins f).

Definition runPostBindPlugin (pl : PostBindPlugin) : ST World unit :=
  call (fun w => (tt, PostBind pl ctx state volume pool cohort w)).

Fixpoint RunPostBindPlugins_range (pls : list PostBindPlugin)
    : ST World unit :=
  match pls with
  | [] => mret tt
  | pl :: rest =>
      runPostBindPlugin pl;;
      RunPostBindPlugins_range rest
  end.

Definition RunPostBindPlugins (f : OtherPlugins) : ST World unit :=
  RunPostBindPlugins_range (postBindPlugins f).

End OtherCycle.
End OtherExtensionPoints.

End runtime.

(** ** Vocabulary of the properties *)

Module props.
Import framework.

(** The highest precedence among the codes of [ss]; the precedence of
    [Success], the lowest there is, when [ss] is empty. *)
Fixpoint max_precedence (ss : list Status) : Z :=
  match ss with
  | [] => precedence Success
  | s :: rest => Z.max (precedence (code s)) (max_precedence rest)
  end.

(** The members of [ss] whose code has the highest precedence, as met. *)
Definition highest (ss : list Status) : list Status :=
  filter (fun s => precedence (code s) = max_precedence ss) ss.

(** The plugin name a merge of [ss] carries: that of the first member met
    with the highest precedence when some member is above [Success], and
    the empty name otherwise. *)
Definition attributed_plugin (ss : list Status) : string :=
  if bool_decide (max_precedence ss > precedence Success)%Z
  then from_option pluginName "" (head (highest ss))
  else "".

(** The plugin name of the member with the highest precedence met last. *)
Definition last_seen_highest_plugin (ss : list Status) : option string :=
  pluginName <$> last (highest ss).

(** The cause a merge of [ss] carries: the error of the [Error]-coded member
    met last, nil when there is none. *)
Definition last_Error_cause (ss : list Status) : option GoError :=
  match last (filter (fun s => code s = Error) ss) with
  | Some s => AsError (Some s)
  | None => None
  end.

(** The invariant the documentation of [Status] asks of its users. *)
Definition status_invariant (s : Status) : Prop :=
  (code s = Success → reasons s = [] ∧ err s = None) ∧
  (code s ≠ Success → reasons s ≠ []).

(** What one turn of the loop of [Merge] makes of the accumulator on a
    member that is not nil. *)
Definition merged_with (acc s : Status) : Status :=
  let e := if bool_decide (code s = Error) then AsError (Some s) else err acc in
  if bool_decide (precedence (code s) > precedence (code acc))%Z
  then mkStatus (code s) (reasons acc ++ reasons s) e (pluginName s)
  else mkStatus (code acc) (reasons acc ++ reasons s) e (pluginName acc).

(** Two plugins that both found the volume unschedulable. *)
Definition unschedulable_A : Status :=
  mkStatus Unschedulable ["pool too small"] None "A".
Definition unschedulable_B : Status :=
  mkStatus Unschedulable ["wrong zone"] None "B".
Definition two_unschedulable : list (string * option Status) :=
  [("A", Some unschedulable_A); ("B", Some unschedulable_B)].

(** What a piece of code returns from a store, leaving aside the store
    it leaves. *)
Definition returned {S A : Type} (m : ST S A) (σ : S) : Result A :=
  match m σ with
  | Ok (a, _) => Ok a
  | Panic => Panic
  end.

(** What [Read] hands back for the content of a key. *)
Definition found_or_not {D : Type} (v : option D) : option D * option GoError :=
  match v with
  | Some d => (Some d, None)
  | None => (None, Some ErrNotFound)
  end.

(** A kind of state data for the examples: counters, whose copy is the
    counter itself. *)
#[global] Instance counter_StateData : StateData Z := fun z => z.

Definition one_cycle_state : gmap nat (CycleState Z) :=
  {[ 0 := mkCycleState {[ "capacity" := 7%Z ]} ]}.

Section Outcomes.
Context `{Externals}.

(** What the calls [steps] answer when they are made one after the other
    from the world [w]: the status each returns and the world it
    leaves. *)
Fixpoint outcomes (steps : list (World → option Status * World)) (w : World)
    : list (option Status * World) :=
  match steps with
  | [] => []
  | step :: rest => step w :: outcomes rest (step w).2
  end.

(** The world after the calls that answered [outs], made from [w]. *)
Definition world_after (outs : list (option Status * World)) (w : World)
    : World :=
  from_option snd w (last outs).

(** The record of one call of [m] on each of [pls], in their order. *)
Definition called {P : Type} `{!Plugin P} (m : runtime.Method)
    (pls : list P) : list runtime.Call :=
  (fun pl => runtime.mkCall m (Name pl)) <$> pls.

(** The status [s] with its plugin name set to [name]. *)
Definition named (s : Status) (name : string) : Status :=
  mkStatus (code s) (reasons s) (err s) name.

(** The [Error] status the driver makes of a failure [cause] of the plugin
    [name]: its one reason is the message [before], the quoted plugin
    name, [after] and the message of the cause; its error wraps the
    cause; [plugin] is its plugin name. *)
Definition escalated (before after name : string) (cause : GoError)
    (plugin : string) : Status :=
  let msg := before +:+ strconv_Quote name +:+ after +:+ error_Error cause in
  mkStatus Error [msg] (Some (wrapError msg cause)) plugin.

(** The world after [Unreserve] of each of [pls], in the order of
    [pls]. *)
Definition unreserved (ctx : context_Context) (state : option nat)
    (volume : StorageVolume) (pool cohort : ObjectReference)
    (pls : list ReservePlugin) (w : World) : World :=
  foldl (fun w pl => Unreserve pl ctx state volume pool cohort w) w pls.

Definition succeeded (o : option Status * World) : Prop :=
  IsSuccess o.1 = true.

(** A bind plugin that declined: a status that is not nil, with code
    [Skip]. *)
Definition skipped (o : option Status * World) : Prop :=
  ∃ s, o.1 = Some s ∧ code s = Skip.

(** A filter plugin that passed the pool or found the volume
    unschedulable on it. *)
Definition passed_or_unschedulable (o : option Status * World) : Prop :=
  IsSuccess o.1 = true ∨ IsUnschedulable o.1 = true.

(** The statuses that the filter plugins named [name] among [pls] have
    recorded, in the order of the calls: the [Unschedulable] answers,
    each with its plugin name set. *)
Fixpoint recorded (name : string) (pls : list FilterPlugin)
    (outs : list (option Status * World)) : list Status :=
  match pls, outs with
  | pl :: pls', (Some s, _) :: outs' =>
      if bool_decide (Name pl = name ∧ code s = Unschedulable)
      then named s name :: recorded name pls' outs'
      else recorded name pls' outs'
  | _ :: pls', (None, _) :: outs' => recorded name pls' outs'
  | _, _ => []
  end.

End Outcomes.

(** *** Example plugins

    Their world is a journal, to which every call adds the name of its
    plugin. *)
Definition journal_Externals : Externals := {|
  context_Context := unit;
  StorageVolume := unit;
  StoragePool := string;
  ObjectReference := string;
  World := list string;
  strconv_Quote := fun s =>
    String (Ascii.ascii_of_nat 34) (s +:+ String (Ascii.ascii_of_nat 34) "")
|}.

Section Examples.
#[local] Existing Instance journal_Externals.

Definition answering (name : string) (st : option Status)
    : World → option Status * World :=
  fun w => (st, w ++ [name]).

Definition prefilter (name : string) (st : option Status) : PreFilterPlugin :=
  {| PreFilterPlugin_Name := name;
     PreFilter := fun _ _ _ => answering name st |}.

Definition filter_plugin (name : string) (st : option Status) : FilterPlugin :=
  {| FilterPlugin_Name := name;
     Filter := fun _ _ _ _ => answering name st |}.

Definition scorer (name : string) (score : Z) : ScorePlugin :=
  {| ScorePlugin_Name := name;
     Score := fun _ _ _ _ _ w => ((score, None), w ++ [name]) |}.

Definition reserver (name : string) (st : option Status) : ReservePlugin :=
  {| ReservePlugin_Name := name;
     Reserve := fun _ _ _ _ _ => answering name st;
     Unreserve := fun _ _ _ _ _ w => w ++ ["undo " +:+ name] |}.

Definition binder (name : string) (st : option Status) : BindPlugin :=
  {| BindPlugin_Name := name;
     Bind := fun _ _ _ _ _ => answering name st |}.

Definition framework_of (pre : list PreFilterPlugin) (fil : list FilterPlugin)
    (sco : list ScorePlugin) (res : list ReservePlugin)
    (bin : list BindPlugin) : runtime.Framework :=
  {| runtime.preFilterPlugins := pre;
     runtime.filterPlugins := fil;
     runtime.scorePlugins := sco;
     runtime.reservePlugins := res;
     runtime.bindPlugins := bin |}.

Definition start : runtime.DriverState := runtime.mkDriverState [] [].

Definition no_pool_fits : Status := NewStatus Unschedulable ["no pool fits"].

Definition prefilter_ABC : runtime.Framework :=
  framework_of [prefilter "A" None; prefilter "B" (Some no_pool_fits);
                prefilter "C" None] [] [] [] [].

Definition prefilter_B : runtime.Framework :=
  framework_of [prefilter "B" (Some no_pool_fits)] [] [] [] [].

Definition filter_AB : runtime.Framework :=
  framework_of [] [filter_plugin "A" (Some no_pool_fits);
                   filter_plugin "B" None] [] [] [].

Definition score_A : runtime.Framework :=
  framework_of [] [] [scorer "A" 1000] [] [].

Definition reserve_ABC : runtime.Framework :=
  framework_of [] [] []
    [reserver "A" None; reserver "B" (Some (NewStatus Error ["disk gone"]));
     reserver "C" None] [].

Definition bind_AB : runtime.Framework :=
  framework_of [] [] [] []
    [binder "A" (Some (NewStatus Skip ["not mine"]));
     binder "B" (Some (NewStatus Success []))].

End Examples.

(** *** Vocabulary and examples for the other extension points *)

Section Answers.
Context `{Externals}.

(** What the calls [steps] return when they are made one after the other
    from the world [w], each with the world it leaves. *)
Fixpoint answers {A : Type} (steps : list (World → A * World)) (w : World)
    : list (A * World) :=
  match steps with
  | [] => []
  | step :: rest => step w :: answers rest (step w).2
  end.

(** The world after the calls that returned [outs], made from [w]. *)
Definition world_left {A : Type} (outs : list (A * World)) (w : World)
    : World :=
  from_option snd w (last outs).

(** A PostFilter plugin that found the volume unschedulable. *)
Definition still_unschedulable (o : (string * option Status) * World) : Prop :=
  IsUnschedulable o.1.2 = true.

(** The world after [PostBind] of each of [pls], in the order of [pls]. *)
Definition post_bound (ctx : context_Context) (state : option nat)
    (volume : StorageVolume) (pool cohort : ObjectReference)
    (pls : list PostBindPlugin) (w : World) : World :=
  foldl (fun w pl => PostBind pl ctx state volume pool cohort w) w pls.

End Answers.

Section MoreExamples.
#[local] Existing Instance journal_Externals.

Definition postfilter (name pool : string) (st : option Status)
    : PostFilterPlugin :=
  {| PostFilterPlugin_Name := name;
     PostFilter := fun _ _ _ w => ((pool, st), w ++ [name]) |}.

Definition prescorer (name : string) (st : option Status) : PreScorePlugin :=
  {| PreScorePlugin_Name := name;
     PreScore := fun _ _ _ _ => answering name st |}.

Definition prebinder (name : string) (st : option Status) : PreBindPlugin :=
  {| PreBindPlugin_Name := name;
     PreBind := fun _ _ _ _ _ => answering name st |}.

Definition postbinder (name : string) : PostBindPlugin :=
  {| PostBindPlugin_Name := name;
     PostBind := fun _ _ _ _ _ w => w ++ [name] |}.

Definition wrong_zone : Status := NewStatus Unschedulable ["wrong zone"].
Definition disk_gone : Status := NewStatus Error ["disk gone"].

Definition postfilter_AB : runtime.OtherPlugins :=
  {| runtime.postFilterPlugins :=
       [postfilter "A" "" (Some no_pool_fits);
        postfilter "B" "" (Some wrong_zone)];
     runtime.preScorePlugins := [];
     runtime.preBindPlugins := [];
     runtime.postBindPlugins := [] |}.

Definition postfilter_ABC : runtime.OtherPlugins :=
  {| runtime.postFilterPlugins :=
       [postfilter "A" "" (Some no_pool_fits);
        postfilter "B" "pool-2" None;
        postfilter "C" "" (Some disk_gone)];
     runtime.preScorePlugins := [];
     runtime.preBindPlugins := [];
     runtime.postBindPlugins := [] |}.

Definition stages_ABC : runtime.OtherPlugins :=
  {| runtime.postFilterPlugins := [];
     runtime.preScorePlugins :=
       [prescorer "A" None; prescorer "B" (Some wrong_zone);
        prescorer "C" None];
     runtime.preBindPlugins :=
       [prebinder "A" None; prebinder "B" (Some disk_gone);
        prebinder "C" None];
     runtime.postBindPlugins :=
       [postbinder "A"; postbinder "B"; postbinder "C"] |}.

End MoreExamples.

End props.

(** Unfolds the monad of the driver down to the plugin call. *)
Ltac driver_step :=
  unfold mbind, ST_bind, mret, ST_ret, pure_step, runtime.invoke;
  cbn beta iota.

(** The same for the operations modelled on the world alone. *)
Ltac stage_step :=
  unfold mbind, ST_bind, mret, ST_ret, pure_step, runtime.call;
  cbn beta iota.

(** ** Properties of the status model *)

Section StatusProperties.
Import framework props.

Lemma precedence_cases (c : Z) :
  precedence c =
    if decide (c = Error) then 2%Z
    else if decide (c = Unschedulable) then 1%Z
    else if decide (c = Success) then (-1)%Z else 0%Z.
Proof.
  unfold precedence, statusPrecedence.
  rewrite !lookup_insert, lookup_empty.
  repeat case_decide; subst; simpl; try reflexivity; congruence.
Qed.

Lemma precedence_lower_bound (c : Z) : (precedence Success <= precedence c)%Z.
Proof.
  rewrite !precedence_cases. unfold Success, Error, Unschedulable.
  repeat case_decide; lia.
Qed.

Lemma precedence_Success_inv (c : Z) :
  precedence c = precedence Success → c = Success.
Proof.
  rewrite !precedence_cases. unfold Success, Error, Unschedulable.
  repeat case_decide; lia.
Qed.

Lemma max_precedence_lower_bound ss :
  (precedence Success <= max_precedence ss)%Z.
Proof.
  induction ss as [|s ss IH]; simpl; [lia|].
  pose proof (precedence_lower_bound (code s)). lia.
Qed.

Lemma max_precedence_upper_bound ss s :
  s ∈ ss → (precedence (code s) <= max_precedence ss)%Z.
Proof.
  induction 1 as [s ss|s s' ss _ IH]; simpl; lia.
Qed.

Lemma foldl_AppendReason acc rs :
  foldl AppendReason acc rs =
    mkStatus (code acc) (reasons acc ++ rs) (err acc) (pluginName acc).
Proof.
  revert acc. induction rs as [|r rs IH]; intros [c l e n]; simpl.
  - by rewrite app_nil_r.
  - rewrite IH. simpl. by rewrite <- app_assoc.
Qed.

Lemma Merge_body_Some acc s :
  Merge_body acc (Some s) = Ok (merged_with acc s).
Proof.
  unfold Merge_body, merged_with. simpl.
  destruct acc as [c l e n].
  repeat case_bool_decide; simpl; by rewrite foldl_AppendReason.
Qed.

(** A nil member makes the loop of [Merge] panic at [s.reasons]. *)
Lemma Merge_body_nil acc : Merge_body acc None = Panic.
Proof.
  unfold Merge_body. cbn [Status_Code].
  rewrite (bool_decide_eq_false_2 (Success = Error)) by discriminate.
  rewrite bool_decide_eq_false_2; [reflexivity|].
  pose proof (precedence_lower_bound (code acc)). lia.
Qed.

Lemma Merge_loop_members acc order ss :
  order.*2 = Some <$> ss →
  Merge_loop acc order = Ok (foldl merged_with acc ss).
Proof.
  revert acc ss. induction order as [|[k s] order IH]; intros acc ss Hss.
  - destruct ss; [reflexivity|discriminate].
  - destruct ss as [|s' ss]; [discriminate|].
    simpl in Hss. injection Hss as -> Hss.
    simpl. rewrite Merge_body_Some. simpl. by apply IH.
Qed.

Lemma merged_reasons acc ss :
  reasons (foldl merged_with acc ss) = reasons acc ++ mjoin (reasons <$> ss).
Proof.
  revert acc. induction ss as [|s ss IH]; intros acc; simpl.
  - by rewrite app_nil_r.
  - rewrite IH. unfold merged_with.
    case_bool_decide; simpl; by rewrite <- app_assoc.
Qed.

Lemma merged_precedence acc ss :
  precedence (code (foldl merged_with acc ss)) =
    Z.max (precedence (code acc)) (max_precedence ss).
Proof.
  revert acc. induction ss as [|s ss IH]; intros acc; simpl.
  - pose proof (precedence_lower_bound (code acc)). lia.
  - rewrite IH. unfold merged_with. case_bool_decide; simpl; lia.
Qed.

Lemma merged_code_source acc ss :
  code (foldl merged_with acc ss) = code acc ∨
  ∃ s, s ∈ ss ∧ code (foldl merged_with acc ss) = code s.
Proof.
  revert acc. induction ss as [|s ss IH]; intros acc; simpl; [by left|].
  destruct (IH (merged_with acc s)) as [Heq|(s' & Hin & Heq)].
  - rewrite Heq. unfold merged_with. case_bool_decide; simpl.
    + right. exists s. split; [constructor|reflexivity].
    + by left.
  - right. exists s'. split; [by constructor|assumption].
Qed.

Lemma merged_pluginName acc ss :
  pluginName (foldl merged_with acc ss) =
    if bool_decide (max_precedence ss > precedence (code acc))%Z
    then from_option pluginName "" (head (highest ss))
    else pluginName acc.
Proof.
  revert acc. induction ss as [|s ss IH]; intros acc.
  - simpl. pose proof (precedence_lower_bound (code acc)).
    by rewrite bool_decide_eq_false_2 by lia.
  - cbn [foldl]. rewrite IH. clear IH.
    pose proof (max_precedence_lower_bound ss) as Hlow.
    unfold highest. cbn [max_precedence]. rewrite filter_cons.
    unfold merged_with.
    destruct (bool_decide_reflect
                (precedence (code s) > precedence (code acc))%Z) as [Hgt|Hle];
      cbn [code pluginName].
    + rewrite (bool_decide_eq_true_2
                 (Z.max (precedence (code s)) (max_precedence ss)
                  > precedence (code acc))%Z) by lia.
      case_bool_decide as Hr.
      * rewrite decide_False by lia.
        replace (Z.max (precedence (code s)) (max_precedence ss))
          with (max_precedence ss) by lia.
        reflexivity.
      * rewrite decide_True by lia. reflexivity.
    + case_bool_decide as Hr.
      * rewrite bool_decide_eq_true_2 by lia.
        rewrite decide_False by lia.
        replace (Z.max (precedence (code s)) (max_precedence ss))
          with (max_precedence ss) by lia.
        reflexivity.
      * by rewrite bool_decide_eq_false_2 by lia.
Qed.

Lemma merged_err acc ss :
  err (foldl merged_with acc ss) =
    match last (filter (fun s => code s = Error) ss) with
    | Some s => AsError (Some s)
    | None => err acc
    end.
Proof.
  revert acc. induction ss as [|s ss IH]; intros acc; [reflexivity|].
  cbn [foldl]. rewrite IH, filter_cons. clear IH.
  destruct (decide (code s = Error)) as [He|He]; cbv iota.
  - rewrite last_cons.
    destruct (last (filter (fun s0 => code s0 = Error) ss)); [reflexivity|].
    unfold merged_with.
    rewrite (bool_decide_eq_true_2 _ He). by case_bool_decide.
  - destruct (last (filter (fun s0 => code s0 = Error) ss)); [reflexivity|].
    unfold merged_with. rewrite (bool_decide_eq_false_2 _ He).
    by case_bool_decide.
Qed.

Lemma range_order_nonempty {V} (p : gmap string V) order :
  range_order p order → p ≠ ∅ → order ≠ [] ∧ size p ≠ 0.
Proof.
  unfold range_order. intros Hperm Hne. split.
  - intros ->. apply Permutation_nil in Hperm.
    by apply map_to_list_empty_iff in Hperm.
  - by apply map_size_non_empty_iff.
Qed.

End StatusProperties.

Import framework props.

Lemma Merge_of_members (p : gmap string (option Status))
    (order : list (string * option Status)) (ss : list Status) :
  p ≠ ∅ → range_order p order → order.*2 = Some <$> ss →
  ss ≠ [] ∧
  Merge p order = Ok (Some (foldl merged_with (mkStatus Success [] None "") ss)).
Proof.
  intros Hne Horder Hss.
  destruct (range_order_nonempty p order Horder Hne) as [Hord Hsize].
  split; [intros ->; by destruct order|].
  unfold Merge. rewrite bool_decide_eq_false_2 by assumption.
  change (NewStatus Success []) with (mkStatus Success [] None "").
  by rewrite (Merge_loop_members _ _ ss Hss).
Qed.

Lemma range_order_list_to_map {V} (l : list (string * V)) :
  NoDup l.*1 → range_order (list_to_map l) l.
Proof. intros Hl. unfold range_order. symmetry. by apply map_to_list_to_map. Qed.

Lemma two_unschedulable_inputs :
  (list_to_map two_unschedulable : gmap string (option Status)) ≠ ∅ ∧
  range_order (list_to_map two_unschedulable) two_unschedulable ∧
  two_unschedulable.*2 = Some <$> [unschedulable_A; unschedulable_B].
Proof.
  split; [|split; [|reflexivity]].
  - intros E. apply (f_equal (fun m => m !! "A")) in E. vm_compute in E.
    discriminate.
  - apply range_order_list_to_map. apply (bool_decide_unpack _).
    vm_compute. exact I.
Qed.

(** C7. A nil status has code [Success], is a success, and gives a nil
    error; and for every status, nil or not, [AsError] is nil exactly when
    the code is [Success], and is otherwise an error that is the wrapped
    cause when there is one and a new error carrying [Message] when there
    is none. *)
Theorem nil_status_and_AsError :
  Status_Code None = Success ∧ IsSuccess None = true ∧ AsError None = None ∧
  ∀ s : option Status,
    (AsError s = None ↔ Status_Code s = Success) ∧
    (IsSuccess s = true ↔ Status_Code s = Success) ∧
    (Status_Code s ≠ Success →
       ∃ s' e, s = Some s' ∧ AsError s = Some e ∧
         (err s' = Some e ∨
          (err s' = None ∧ e = errors_New (Message s) ∧
           error_Error e = Message s))).
Proof.
  split; [reflexivity|]. split; [reflexivity|]. split; [reflexivity|].
  intros s. unfold AsError, IsSuccess.
  split; [|split].
  - case_bool_decide as Hc; [tauto|].
    destruct s as [s'|]; [|done].
    destruct (err s'); split; intros; done.
  - apply bool_decide_eq_true.
  - intros Hc. rewrite bool_decide_eq_false_2 by assumption.
    destruct s as [s'|]; [|done].
    destruct (err s') as [e|] eqn:He.
    + exists s', e. rewrite He. auto.
    + exists s', (errors_New (Message (Some s'))). rewrite He. auto 6.
Qed.

(** C10. On an empty map [Merge] returns nil, whatever order is handed to
    its loop, and that result has code [Success], is a success and gives
    a nil error. *)
Theorem Merge_empty_is_nil :
  ∀ order : list (string * option Status),
    ∃ r, Merge ∅ order = Ok r ∧ r = None ∧
      Status_Code r = Success ∧ IsSuccess r = true ∧ AsError r = None.
Proof.
  intros order. exists None. unfold Merge.
  rewrite map_size_empty. repeat split.
Qed.

(** C2, as the code has it. For a non-empty map whose statuses are not nil,
    visited in any order, [Merge] returns a status whose code is the code of
    a member and has the highest precedence among the members, whose reasons
    are the members' reasons concatenated in the order met, whose plugin
    name is that of the FIRST member met with that highest precedence (the
    empty name when every member has code [Success]), and whose error is
    [AsError] of the [Error]-coded member met last (nil when there is
    none). *)
Theorem Merge_nonempty (p : gmap string (option Status))
    (order : list (string * option Status)) (ss : list Status) :
  p ≠ ∅ → range_order p order → order.*2 = Some <$> ss →
  ∃ final, Merge p order = Ok (Some final) ∧
    precedence (code final) = max_precedence ss ∧
    (∃ s, s ∈ ss ∧ code final = code s) ∧
    (∀ s, s ∈ ss → (precedence (code s) <= precedence (code final))%Z) ∧
    reasons final = mjoin (reasons <$> ss) ∧
    pluginName final = attributed_plugin ss ∧
    err final = last_Error_cause ss.
Proof.
  intros Hne Horder Hss.
  destruct (Merge_of_members p order ss Hne Horder Hss) as [Hnil ->].
  eexists. split; [reflexivity|].
  pose proof (max_precedence_lower_bound ss) as Hlow.
  assert (Hprec : precedence (code (foldl merged_with
                     (mkStatus Success [] None "") ss)) = max_precedence ss).
  { rewrite merged_precedence. simpl. lia. }
  split; [exact Hprec|]. split; [|split; [|split; [|split]]].
  - destruct (merged_code_source (mkStatus Success [] None "") ss)
      as [Hc|Hc]; [|exact Hc].
    destruct ss as [|s ss]; [done|].
    exists s. split; [constructor|].
    rewrite Hc. symmetry. apply precedence_Success_inv.
    rewrite Hc in Hprec. simpl in Hprec.
    pose proof (max_precedence_upper_bound (s :: ss) s (list_elem_of_here _ _)).
    pose proof (precedence_lower_bound (code s)). simpl in *. lia.
  - intros s Hs. rewrite Hprec. by apply max_precedence_upper_bound.
  - by rewrite merged_reasons.
  - rewrite merged_pluginName. reflexivity.
  - rewrite merged_err. reflexivity.
Qed.

Lemma Merge_nonempty_witness :
  (list_to_map two_unschedulable : gmap string (option Status)) ≠ ∅ ∧
  range_order (list_to_map two_unschedulable) two_unschedulable ∧
  two_unschedulable.*2 = Some <$> [unschedulable_A; unschedulable_B] ∧
  ∃ final, Merge (list_to_map two_unschedulable) two_unschedulable
             = Ok (Some final) ∧
    precedence (code final) = max_precedence [unschedulable_A; unschedulable_B] ∧
    (∃ s, s ∈ [unschedulable_A; unschedulable_B] ∧ code final = code s) ∧
    (∀ s, s ∈ [unschedulable_A; unschedulable_B] →
          (precedence (code s) <= precedence (code final))%Z) ∧
    reasons final = mjoin (reasons <$> [unschedulable_A; unschedulable_B]) ∧
    pluginName final = attributed_plugin [unschedulable_A; unschedulable_B] ∧
    err final = last_Error_cause [unschedulable_A; unschedulable_B].
Proof.
  destruct two_unschedulable_inputs as (H1 & H2 & H3).
  split; [exact H1|]. split; [exact H2|]. split; [exact H3|].
  exact (Merge_nonempty _ _ _ H1 H2 H3).
Defined.

(** C2, as the specification words it, fails: with two [Unschedulable] members met
    as A then B, the highest-precedence member seen last is B, and the
    merged status names A. *)
Lemma Merge_names_first_seen_not_last :
  range_order (list_to_map two_unschedulable) two_unschedulable ∧
  last_seen_highest_plugin [unschedulable_A; unschedulable_B] = Some "B" ∧
  ∃ final, Merge (list_to_map two_unschedulable) two_unschedulable
             = Ok (Some final) ∧
           pluginName final = "A" ∧
           Some (pluginName final)
             ≠ last_seen_highest_plugin [unschedulable_A; unschedulable_B].
Proof.
  split; [apply two_unschedulable_inputs|].
  split; [vm_compute; reflexivity|].
  eexists. split; [vm_compute; reflexivity|].
  split; [reflexivity|]. vm_compute. discriminate.
Qed.

(** A nil member of the map makes [Merge] panic. *)
Lemma Merge_nil_member_panics :
  Merge {[ "A" := None ]} [("A", None)] = Panic.
Proof. vm_compute. reflexivity. Qed.

(** C9, as the specification words it, fails: [NewStatus] keeps the reasons it is
    given, also with code [Success]. *)
Lemma NewStatus_Success_with_reason_breaks_invariant :
  ¬ status_invariant (NewStatus Success ["bound"]).
Proof. intros [H _]. destruct (H eq_refl) as [Hr _]. discriminate Hr. Qed.

(** [NewStatus] with a code other than [Success] and no reason breaks the
    invariant as well, and so does a merge that meets such a status. *)
Lemma NewStatus_Unschedulable_without_reason_breaks_invariant :
  ¬ status_invariant (NewStatus Unschedulable []) ∧
  ∃ final, Merge {[ "A" := Some (NewStatus Unschedulable []) ]}
                 [("A", Some (NewStatus Unschedulable []))] = Ok (Some final) ∧
           ¬ status_invariant final.
Proof.
  split.
  - intros [_ H]. apply H; [discriminate|reflexivity].
  - eexists. split; [vm_compute; reflexivity|].
    intros [_ H]. apply H; [discriminate|reflexivity].
Qed.

(** C9, as the code has it. [NewStatus code reasons] satisfies the
    invariant exactly when [reasons] is empty for [Success] and not empty
    for every other code; and [Merge] of a non-empty map of statuses that are
    not nil and satisfy the invariant returns a status that satisfies it. *)
Theorem status_invariant_NewStatus_Merge :
  (∀ c rs, status_invariant (NewStatus c rs) ↔ (c = Success ↔ rs = [])) ∧
  (∀ (p : gmap string (option Status)) order ss,
     p ≠ ∅ → range_order p order → order.*2 = Some <$> ss →
     Forall status_invariant ss →
     ∃ final, Merge p order = Ok (Some final) ∧ status_invariant final).
Proof.
  split.
  - intros c rs. unfold status_invariant, NewStatus.
    case_bool_decide as He; simpl.
    + subst c. split.
      * intros [_ H]. split; [discriminate|]. intros ->.
        exfalso. apply H; [discriminate|reflexivity].
      * intros [_ H]. split; [discriminate|]. intros _ Hr.
        specialize (H Hr). discriminate.
    + split.
      * intros [H1 H2]. split; [intros Hc; by apply H1|].
        intros ->. destruct (decide (c = Success)); [done|]. by destruct H2.
      * intros [H1 H2]. split; [intros Hc; split; auto|].
        intros Hc Hr. auto.
  - intros p order ss Hne Horder Hss Hinv.
    destruct (Merge_of_members p order ss Hne Horder Hss) as [Hnil Hm].
    set (final := foldl merged_with (mkStatus Success [] None "") ss) in *.
    pose proof (max_precedence_lower_bound ss) as Hlow.
    assert (Hprec : precedence (code final) = max_precedence ss).
    { unfold final. rewrite merged_precedence. simpl. lia. }
    assert (Hle : ∀ s, s ∈ ss →
              (precedence (code s) <= precedence (code final))%Z).
    { intros s Hs. rewrite Hprec. by apply max_precedence_upper_bound. }
    assert (Hreasons : reasons final = mjoin (reasons <$> ss))
      by (unfold final; by rewrite merged_reasons).
    assert (Herr : err final = last_Error_cause ss)
      by (unfold final; by rewrite merged_err).
    exists final. split; [exact Hm|].
    rewrite Forall_forall in Hinv. split.
    + intros Hc. split.
      * rewrite Hreasons.
        assert (Hall : ∀ s', s' ∈ ss → reasons s' = []).
        { intros s' Hs'. apply (Hinv s' Hs'). apply precedence_Success_inv.
          specialize (Hle s' Hs'). rewrite Hc in Hle.
          pose proof (precedence_lower_bound (code s')). lia. }
        clear -Hall. induction ss as [|s' ss IH]; [reflexivity|].
        simpl. rewrite (Hall s') by constructor.
        apply IH. intros s'' Hs''. apply Hall. by constructor.
      * rewrite Herr. unfold last_Error_cause.
        destruct (last (filter (fun s0 => code s0 = Error) ss)) as [s'|] eqn:Hl;
          [|reflexivity].
        apply last_Some_elem_of in Hl. apply list_elem_of_filter in Hl as [He Hs'].
        specialize (Hle s' Hs'). rewrite Hc, He in Hle.
        vm_compute in Hle. by destruct Hle.
    + intros Hc. rewrite Hreasons.
      destruct (merged_code_source (mkStatus Success [] None "") ss)
        as [Hcode|(s & Hs & Hcode)]; [done|].
      fold final in Hcode. rewrite Hcode in Hc.
      destruct (Hinv s Hs) as [_ Hr]. specialize (Hr Hc).
      clear -Hs Hr. induction Hs as [s ss|s s' ss _ IH]; simpl.
      * destruct (reasons s); [done|discriminate].
      * intros Happ. apply app_eq_nil in Happ as [_ Happ]. by apply IH.
Qed.

Lemma status_invariant_NewStatus_Merge_witness :
  status_invariant (NewStatus Success []) ∧
  status_invariant (NewStatus Skip [""]) ∧
  ∃ final, Merge (list_to_map two_unschedulable) two_unschedulable
             = Ok (Some final) ∧ status_invariant final.
Proof.
  pose proof status_invariant_NewStatus_Merge as [HN HM].
  split; [by apply HN|]. split; [apply HN; split; discriminate|].
  destruct two_unschedulable_inputs as (H1 & H2 & H3).
  apply (HM _ _ _ H1 H2 H3).
  repeat constructor; discriminate.
Defined.

(** ** Properties of the cycle state *)

Section CycleStateProperties.
Context {D : Type} `{!StateData D}.
Implicit Types (h : gmap nat (CycleState D)) (m : gmap string D).

Lemma Write_allocated h a m k v :
  h !! a = Some (mkCycleState m) →
  Write (Some a) k v h = Ok (tt, <[a := mkCycleState (<[k := v]> m)]> h).
Proof. intros Ha. unfold Write, deref. by rewrite Ha. Qed.

Lemma Read_allocated h a m k :
  h !! a = Some (mkCycleState m) →
  Read (Some a) k h = Ok (found_or_not (m !! k), h).
Proof.
  intros Ha. unfold Read, deref. rewrite Ha. simpl. by destruct (m !! k).
Qed.

Lemma Clone_loop_allocated order h a m0 :
  h !! a = Some (mkCycleState m0) →
  Clone_loop (Some a) order h =
    Ok (tt, <[a := mkCycleState
                (foldl (fun m kv => <[kv.1 := StateData_Clone kv.2]> m)
                       m0 order)]> h).
Proof.
  revert h m0. induction order as [|[k v] order IH]; intros h m0 Ha.
  - simpl. unfold mret, ST_ret. by rewrite insert_id.
  - cbn [Clone_loop]. unfold mbind, ST_bind.
    rewrite (Write_allocated h a m0 k _ Ha).
    rewrite (IH _ (<[k := StateData_Clone v]> m0)) by apply lookup_insert_eq.
    by rewrite insert_insert_eq.
Qed.

Lemma foldl_insert_lookup (order : list (string * D)) m0 k :
  NoDup order.*1 →
  foldl (fun m kv => <[kv.1 := StateData_Clone kv.2]> m) m0 order !! k =
    match (list_to_map order : gmap string D) !! k with
    | Some v => Some (StateData_Clone v)
    | None => m0 !! k
    end.
Proof.
  revert m0. induction order as [|[k0 v0] order IH]; intros m0 Hnd.
  - reflexivity.
  - apply NoDup_cons in Hnd as [Hk0 Hnd]. cbn [foldl list_to_map foldr].
    rewrite IH by assumption. simpl.
    destruct (decide (k0 = k)) as [->|Hne].
    + rewrite lookup_insert_eq.
      rewrite (not_elem_of_list_to_map_1 order k) by assumption.
      by rewrite lookup_insert_eq.
    + rewrite (lookup_insert_ne (list_to_map order)) by assumption.
      destruct (list_to_map order !! k); [reflexivity|].
      by rewrite lookup_insert_ne.
Qed.

Lemma cloned_storage m order :
  range_order m order →
  foldl (fun m kv => <[kv.1 := StateData_Clone kv.2]> m) ∅ order =
    StateData_Clone <$> m.
Proof.
  unfold range_order. intros Hperm. apply map_eq. intros k.
  assert (Hnd : NoDup order.*1).
  { rewrite Hperm. apply NoDup_fst_map_to_list. }
  rewrite foldl_insert_lookup by assumption.
  rewrite (list_to_map_proper order (map_to_list m)) by assumption.
  rewrite list_to_map_to_list, lookup_fmap, lookup_empty.
  by destruct (m !! k).
Qed.

(** [Clone] through a nil pointer returns nil and allocates nothing. *)
Lemma Clone_nil h (order : list (string * D)) :
  Clone None order h = Ok (None, h).
Proof. reflexivity. Qed.

(** A key never written reads as [ErrNotFound], with no value. *)
Lemma Read_missing h a m k :
  h !! a = Some (mkCycleState m) → m !! k = None →
  Read (Some a) k h = Ok ((None, Some ErrNotFound), h).
Proof. intros Ha Hk. rewrite (Read_allocated h a m k Ha). by rewrite Hk. Qed.

(** C8. [Clone] of an allocated cycle state returns a new cycle state,
    at an address other than the original's, whose storage holds under
    every key the [Clone] of the value the original holds there; the
    original is left as it was; and after that a [Write] to either of
    the two, under any key, leaves what [Read] returns from the other
    one, for every key, as it was. *)
Theorem Clone_is_independent h a m (order : list (string * D)) :
  h !! a = Some (mkCycleState m) → range_order m order →
  ∃ a' h',
    Clone (Some a) order h = Ok (Some a', h') ∧
    a' ≠ a ∧ h !! a' = None ∧
    h' !! a = Some (mkCycleState m) ∧
    h' !! a' = Some (mkCycleState (StateData_Clone <$> m)) ∧
    (∀ k, returned (Read (Some a') k) h'
            = Ok (found_or_not (StateData_Clone <$> m !! k))) ∧
    (∀ k v, ∃ h1, Write (Some a) k v h' = Ok (tt, h1) ∧
               returned (Read (Some a) k) h1 = Ok (Some v, None) ∧
               ∀ k', returned (Read (Some a') k') h1
                     = returned (Read (Some a') k') h') ∧
    (∀ k v, ∃ h2, Write (Some a') k v h' = Ok (tt, h2) ∧
               returned (Read (Some a') k) h2 = Ok (Some v, None) ∧
               ∀ k', returned (Read (Some a) k') h2
                     = returned (Read (Some a) k') h').
Proof.
  intros Ha Horder.
  set (a' := fresh (dom h)).
  assert (Hfresh : h !! a' = None).
  { apply not_elem_of_dom. apply is_fresh. }
  assert (Hne : a' ≠ a) by (intros ->; congruence).
  set (h0 := <[a' := mkCycleState ∅]> h).
  set (h' := <[a' := mkCycleState (StateData_Clone <$> m)]> h).
  assert (Hclone : Clone (Some a) order h = Ok (Some a', h')).
  { unfold Clone, NewCycleState. unfold mbind, ST_bind at 1. fold a' h0.
    unfold mbind, ST_bind.
    rewrite (Clone_loop_allocated order h0 a' ∅) by apply lookup_insert_eq.
    rewrite (cloned_storage m order Horder).
    unfold h0. by rewrite insert_insert_eq. }
  assert (Hold : h' !! a = Some (mkCycleState m)).
  { unfold h'. by rewrite lookup_insert_ne. }
  assert (Hnew : h' !! a' = Some (mkCycleState (StateData_Clone <$> m))).
  { unfold h'. by rewrite lookup_insert_eq. }
  exists a', h'. repeat split; try assumption.
  - intros k. unfold returned. rewrite (Read_allocated _ _ _ _ Hnew).
    by rewrite lookup_fmap.
  - intros k v. eexists. split; [apply (Write_allocated _ _ _ _ _ Hold)|].
    split.
    + unfold returned.
      erewrite Read_allocated by apply lookup_insert_eq.
      by rewrite lookup_insert_eq.
    + intros k'. unfold returned.
      erewrite Read_allocated
        by (rewrite lookup_insert_ne by congruence; exact Hnew).
      by rewrite (Read_allocated _ _ _ _ Hnew).
  - intros k v. eexists. split; [apply (Write_allocated _ _ _ _ _ Hnew)|].
    split.
    + unfold returned.
      erewrite Read_allocated by apply lookup_insert_eq.
      by rewrite lookup_insert_eq.
    + intros k'. unfold returned.
      erewrite Read_allocated
        by (rewrite lookup_insert_ne by congruence; exact Hold).
      by rewrite (Read_allocated _ _ _ _ Hold).
Qed.

End CycleStateProperties.

Lemma Clone_is_independent_witness :
  one_cycle_state !! 0 = Some (mkCycleState {[ "capacity" := 7%Z ]}) ∧
  range_order ({[ "capacity" := 7%Z ]} : gmap string Z) [("capacity", 7%Z)] ∧
  ∃ a' h',
    Clone (Some 0) [("capacity", 7%Z)] one_cycle_state = Ok (Some a', h') ∧
    a' ≠ 0 ∧
    returned (Read (Some a') "capacity") h' = Ok (Some 7%Z, None) ∧
    ∃ h1, Write (Some 0) "capacity" 9%Z h' = Ok (tt, h1) ∧
          returned (Read (Some 0) "capacity") h1 = Ok (Some 9%Z, None) ∧
          returned (Read (Some a') "capacity") h1 = Ok (Some 7%Z, None).
Proof.
  assert (H1 : one_cycle_state !! 0
               = Some (mkCycleState {[ "capacity" := 7%Z ]})) by reflexivity.
  assert (H2 : range_order ({[ "capacity" := 7%Z ]} : gmap string Z)
                 [("capacity", 7%Z)]).
  { unfold range_order. by rewrite map_to_list_singleton. }
  split; [exact H1|]. split; [exact H2|].
  destruct (Clone_is_independent _ _ _ _ H1 H2)
    as (a' & h' & Hc & Hne & _ & _ & _ & Hread & Hw & _).
  exists a', h'. split; [exact Hc|]. split; [exact Hne|].
  split; [apply Hread|].
  destruct (Hw "capacity" 9%Z) as (h1 & Hw1 & Hr1 & Hother).
  exists h1. split; [exact Hw1|]. split; [exact Hr1|].
  rewrite Hother. apply Hread.
Defined.

(** ** Properties of the driver *)

Import runtime.

Section DriverProperties.
Context `{Externals}.
Variable ctx : context_Context.
Variable state : option nat.
Variable volume : StorageVolume.

Lemma world_after_cons o outs (w : World) :
  world_after (o :: outs) w = world_after outs o.2.
Proof.
  unfold world_after. rewrite last_cons. by destruct (last outs).
Qed.

Lemma called_cons {P : Type} `{!Plugin P} m (pl : P) pls (cs : list Call) :
  (cs ++ [mkCall m (Name pl)]) ++ called m pls = cs ++ called m (pl :: pls).
Proof. by rewrite <- app_assoc. Qed.

Lemma not_success_not_nil (st : option Status) :
  IsSuccess st = false →
  ∃ s cause, st = Some s ∧ code s ≠ Success ∧ AsError st = Some cause.
Proof.
  unfold IsSuccess. intros Hs. apply bool_decide_eq_false in Hs.
  destruct st as [s|]; [|done].
  unfold AsError, IsSuccess. rewrite bool_decide_eq_false_2 by assumption.
  destruct (err s) as [e|]; eauto.
Qed.

(** *** PreFilter *)

Lemma RunPreFilterPlugins_range_success pl rest σ :
  IsSuccess (PreFilter pl ctx state volume (world σ)).1 = true →
  RunPreFilterPlugins_range ctx state volume (pl :: rest) σ =
    RunPreFilterPlugins_range ctx state volume rest
      (mkDriverState (PreFilter pl ctx state volume (world σ)).2
                     (calls σ ++ [mkCall PreFilterMethod (Name pl)])).
Proof.
  intros Hs. cbn [RunPreFilterPlugins_range]. unfold runPreFilterPlugin.
  driver_step. destruct (PreFilter pl ctx state volume (world σ)) as [st w].
  simpl in *. by rewrite Hs.
Qed.

Lemma RunPreFilterPlugins_range_failure pl rest σ s cause :
  (PreFilter pl ctx state volume (world σ)).1 = Some s →
  code s ≠ Success → AsError (Some s) = Some cause →
  RunPreFilterPlugins_range ctx state volume (pl :: rest) σ =
    Ok (Some (if bool_decide (code s = Unschedulable)
              then named s (Name pl)
              else escalated "running PreFilter plugin " ": " (Name pl)
                             cause (Name pl)),
        mkDriverState (PreFilter pl ctx state volume (world σ)).2
                      (calls σ ++ [mkCall PreFilterMethod (Name pl)])).
Proof.
  intros Hst Hc Hcause. cbn [RunPreFilterPlugins_range].
  unfold runPreFilterPlugin. driver_step.
  destruct (PreFilter pl ctx state volume (world σ)) as [st w].
  simpl in Hst. subst st. cbn [fst snd].
  unfold IsSuccess at 1. cbn [Status_Code].
  rewrite (bool_decide_eq_false_2 _ Hc). cbn [negb SetPluginName].
  unfold IsUnschedulable. cbn [Status_Code code].
  case_bool_decide as Hu; [reflexivity|].
  assert (Hcause' : AsError (Some (mkStatus (code s) (reasons s) (err s)
                                     (Name pl))) = Some cause).
  { revert Hcause. unfold AsError, IsSuccess, Message. by destruct s. }
  rewrite Hcause'. reflexivity.
Qed.

Lemma RunPreFilterPlugins_range_all_succeed pls σ :
  Forall succeeded
    (outcomes ((fun pl => PreFilter pl ctx state volume) <$> pls) (world σ)) →
  RunPreFilterPlugins_range ctx state volume pls σ =
    Ok (None,
        mkDriverState
          (world_after
             (outcomes ((fun pl => PreFilter pl ctx state volume) <$> pls)
                       (world σ)) (world σ))
          (calls σ ++ called PreFilterMethod pls)).
Proof.
  revert σ. induction pls as [|pl rest IH]; intros σ Hall.
  - destruct σ. simpl. unfold mret, ST_ret, called. simpl.
    by rewrite app_nil_r.
  - cbn [fmap list_fmap outcomes] in Hall.
    apply Forall_cons in Hall as [Hs Hrest].
    rewrite RunPreFilterPlugins_range_success by exact Hs.
    rewrite IH by exact Hrest. cbn [world calls fmap list_fmap outcomes].
    by rewrite world_after_cons, called_cons.
Qed.

Lemma RunPreFilterPlugins_range_first_failure pls σ i pl st w :
  pls !! i = Some pl →
  outcomes ((fun pl => PreFilter pl ctx state volume) <$> pls) (world σ) !! i
    = Some (st, w) →
  Forall succeeded
    (take i (outcomes ((fun pl => PreFilter pl ctx state volume) <$> pls)
                      (world σ))) →
  IsSuccess st = false →
  ∃ s cause, st = Some s ∧ AsError st = Some cause ∧
    RunPreFilterPlugins_range ctx state volume pls σ =
      Ok (Some (if bool_decide (code s = Unschedulable)
                then named s (Name pl)
                else escalated "running PreFilter plugin " ": " (Name pl)
                               cause (Name pl)),
          mkDriverState w (calls σ ++ called PreFilterMethod (take (S i) pls))).
Proof.
  revert σ i. induction pls as [|p rest IH]; intros σ i Hpl Hout Hpre Hst;
    [done|].
  destruct i as [|i]; cbn [fmap list_fmap outcomes] in *.
  - simpl in Hpl, Hout. injection Hpl as ->. injection Hout as Hout.
    destruct (not_success_not_nil st Hst) as (s & cause & -> & Hc & Hcause).
    exists s, cause. split; [done|]. split; [done|].
    rewrite (RunPreFilterPlugins_range_failure pl rest σ s cause);
      [|by rewrite Hout|done|done].
    by rewrite Hout.
  - simpl in Hpl, Hout. rewrite firstn_cons in Hpre.
    apply Forall_cons in Hpre as [Hs Hrest].
    rewrite RunPreFilterPlugins_range_success by exact Hs.
    destruct (IH (mkDriverState (PreFilter p ctx state volume (world σ)).2
                    (calls σ ++ [mkCall PreFilterMethod (Name p)]))
                i Hpl Hout Hrest Hst) as (s & cause & -> & Hcause & ->).
    exists s, cause. split; [done|]. split; [done|].
    cbn [calls]. by rewrite firstn_cons, called_cons.
Qed.

(** C5, as the code has it. [RunPreFilterPlugins] calls the PreFilter plugins
    in registration order, each at most once. When every plugin succeeds
    (and so when there is none) all have been called and the result is
    nil, which is [Success]. Otherwise it stops at the first plugin whose
    status is not a success, calling no plugin after it: an
    [Unschedulable] status is returned with its code, reasons and error
    as the plugin gave them and its plugin name SET to that plugin's
    name; any other status is replaced by an [Error] status that wraps
    its error and carries that plugin's name, in its message and as its
    plugin name. *)
Theorem RunPreFilterPlugins_stops_at_first_failure (f : Framework) σ :
  let pls := preFilterPlugins f in
  let outs :=
    outcomes ((fun pl => PreFilter pl ctx state volume) <$> pls) (world σ) in
  (pls = [] → RunPreFilterPlugins ctx state volume f σ = Ok (None, σ)) ∧
  (Forall succeeded outs →
     RunPreFilterPlugins ctx state volume f σ =
       Ok (None, mkDriverState (world_after outs (world σ))
                               (calls σ ++ called PreFilterMethod pls))) ∧
  (∀ i pl st w,
     pls !! i = Some pl → outs !! i = Some (st, w) →
     Forall succeeded (take i outs) → IsSuccess st = false →
     ∃ s cause, st = Some s ∧ AsError st = Some cause ∧
       RunPreFilterPlugins ctx state volume f σ =
         Ok (Some (if bool_decide (code s = Unschedulable)
                   then named s (Name pl)
                   else escalated "running PreFilter plugin " ": " (Name pl)
                                  cause (Name pl)),
             mkDriverState w
               (calls σ ++ called PreFilterMethod (take (S i) pls)))).
Proof.
  intros pls outs. unfold RunPreFilterPlugins. fold pls.
  split; [|split].
  - intros ->. reflexivity.
  - apply RunPreFilterPlugins_range_all_succeed.
  - apply RunPreFilterPlugins_range_first_failure.
Qed.

(** *** Filter *)

Lemma status_cases (st : option Status) :
  IsSuccess st = true ∨
  (∃ s, st = Some s ∧ code s = Unschedulable ∧ IsSuccess st = false) ∨
  (∃ s cause, st = Some s ∧ IsSuccess st = false ∧
              IsUnschedulable st = false ∧ AsError st = Some cause).
Proof.
  destruct (IsSuccess st) eqn:Hs; [by left|right].
  destruct (not_success_not_nil st Hs) as (s & cause & -> & Hc & Hcause).
  destruct (decide (code s = Unschedulable)) as [Hu|Hu].
  - left. eauto.
  - right. exists s, cause. repeat split; try done.
    by apply bool_decide_eq_false_2.
Qed.

Section Filter.
Variable poolInfo : option PoolInfo.

Lemma RunFilterPlugins_range_success m pl rest σ :
  IsSuccess (Filter pl ctx state volume poolInfo (world σ)).1 = true →
  RunFilterPlugins_range ctx state volume poolInfo m (pl :: rest) σ =
    RunFilterPlugins_range ctx state volume poolInfo m rest
      (mkDriverState (Filter pl ctx state volume poolInfo (world σ)).2
                     (calls σ ++ [mkCall FilterMethod (Name pl)])).
Proof.
  intros Hs. cbn [RunFilterPlugins_range]. unfold runFilterPlugin.
  driver_step.
  destruct (Filter pl ctx state volume poolInfo (world σ)) as [st w].
  simpl in *. by rewrite Hs.
Qed.

Lemma RunFilterPlugins_range_unschedulable m pl rest σ s :
  (Filter pl ctx state volume poolInfo (world σ)).1 = Some s →
  code s = Unschedulable →
  RunFilterPlugins_range ctx state volume poolInfo m (pl :: rest) σ =
    RunFilterPlugins_range ctx state volume poolInfo
      (<[Name pl := Some (named s (Name pl))]> m) rest
      (mkDriverState (Filter pl ctx state volume poolInfo (world σ)).2
                     (calls σ ++ [mkCall FilterMethod (Name pl)])).
Proof.
  intros Hst Hu. cbn [RunFilterPlugins_range]. unfold runFilterPlugin.
  driver_step.
  destruct (Filter pl ctx state volume poolInfo (world σ)) as [st w].
  simpl in Hst. subst st. cbn [fst snd].
  unfold IsSuccess, IsUnschedulable. cbn [Status_Code]. rewrite Hu.
  reflexivity.
Qed.

Lemma RunFilterPlugins_range_other m pl rest σ cause :
  IsSuccess (Filter pl ctx state volume poolInfo (world σ)).1 = false →
  IsUnschedulable (Filter pl ctx state volume poolInfo (world σ)).1 = false →
  AsError (Filter pl ctx state volume poolInfo (world σ)).1 = Some cause →
  RunFilterPlugins_range ctx state volume poolInfo m (pl :: rest) σ =
    Ok ({[ Name pl := Some (escalated "running " " filter plugin: " (Name pl)
                                      cause (Name pl)) ]},
        mkDriverState (Filter pl ctx state volume poolInfo (world σ)).2
                      (calls σ ++ [mkCall FilterMethod (Name pl)])).
Proof.
  intros Hs Hu Hcause. cbn [RunFilterPlugins_range]. unfold runFilterPlugin.
  driver_step.
  destruct (Filter pl ctx state volume poolInfo (world σ)) as [st w].
  simpl in *. by rewrite Hs, Hu, Hcause.
Qed.

Lemma RunFilterPlugins_range_collects pls m σ :
  Forall passed_or_unschedulable
    (outcomes ((fun pl => Filter pl ctx state volume poolInfo) <$> pls)
              (world σ)) →
  ∃ statuses,
    RunFilterPlugins_range ctx state volume poolInfo m pls σ =
      Ok (statuses,
          mkDriverState
            (world_after
               (outcomes ((fun pl => Filter pl ctx state volume poolInfo)
                            <$> pls) (world σ)) (world σ))
            (calls σ ++ called FilterMethod pls)) ∧
    ∀ name,
      statuses !! name =
        match last (recorded name pls
                      (outcomes ((fun pl => Filter pl ctx state volume poolInfo)
                                   <$> pls) (world σ))) with
        | Some s => Some (Some s)
        | None => m !! name
        end.
Proof.
  revert m σ. induction pls as [|pl rest IH]; intros m σ Hall.
  - exists m. destruct σ. simpl. unfold mret, ST_ret, called. simpl.
    by rewrite app_nil_r.
  - cbn [fmap list_fmap outcomes] in *.
    apply Forall_cons in Hall as [Hhead Hrest].
    set (r := Filter pl ctx state volume poolInfo (world σ)) in *.
    destruct (status_cases r.1)
      as [Hs|[(s & Hst & Hu & Hs)|(s & cause & Hst & Hs & Hu & _)]].
    + rewrite RunFilterPlugins_range_success by exact Hs. fold r.
      destruct (IH m (mkDriverState r.2
                        (calls σ ++ [mkCall FilterMethod (Name pl)])) Hrest)
        as (statuses & -> & Hlook).
      exists statuses. cbn [world calls].
      rewrite world_after_cons, called_cons. split; [done|].
      intros name. rewrite Hlook. cbn [world].
      destruct r as [[s|] w]; cbn [recorded fst snd]; [|done].
      rewrite bool_decide_eq_false_2; [done|].
      intros [_ Hu]. unfold IsSuccess in Hs. simpl in Hs.
      apply bool_decide_eq_true in Hs. rewrite Hs in Hu. discriminate.
    + rewrite (RunFilterPlugins_range_unschedulable m pl rest σ s)
        by assumption.
      fold r.
      destruct (IH (<[Name pl := Some (named s (Name pl))]> m)
                   (mkDriverState r.2
                      (calls σ ++ [mkCall FilterMethod (Name pl)])) Hrest)
        as (statuses & -> & Hlook).
      exists statuses. cbn [world calls].
      rewrite world_after_cons, called_cons. split; [done|].
      intros name. rewrite Hlook. cbn [world].
      destruct r as [st w]. simpl in Hst. subst st. cbn [recorded fst snd].
      case_bool_decide as Hn.
      * destruct Hn as [<- _]. rewrite last_cons.
        destruct (last _); [done|]. by rewrite lookup_insert_eq.
      * destruct (last _); [done|]. rewrite lookup_insert_ne; [done|].
        intros Heq. apply Hn. by split.
    + destruct Hhead as [Hp|Hp]; congruence.
Qed.

Lemma RunFilterPlugins_range_escalates pls m σ i pl st w :
  pls !! i = Some pl →
  outcomes ((fun pl => Filter pl ctx state volume poolInfo) <$> pls)
           (world σ) !! i = Some (st, w) →
  Forall passed_or_unschedulable
    (take i (outcomes ((fun pl => Filter pl ctx state volume poolInfo)
                         <$> pls) (world σ))) →
  IsSuccess st = false → IsUnschedulable st = false →
  ∃ cause, AsError st = Some cause ∧
    RunFilterPlugins_range ctx state volume poolInfo m pls σ =
      Ok ({[ Name pl := Some (escalated "running " " filter plugin: "
                                        (Name pl) cause (Name pl)) ]},
          mkDriverState w (calls σ ++ called FilterMethod (take (S i) pls))).
Proof.
  revert m σ i. induction pls as [|p rest IH];
    intros m σ i Hpl Hout Hpre Hs Hu; [done|].
  destruct i as [|i]; cbn [fmap list_fmap outcomes] in *.
  - simpl in Hpl, Hout. injection Hpl as ->. injection Hout as Hout.
    destruct (not_success_not_nil st Hs) as (s & cause & -> & Hc & Hcause).
    exists cause. split; [done|].
    rewrite (RunFilterPlugins_range_other m pl rest σ cause);
      rewrite Hout; done.
  - simpl in Hpl, Hout. rewrite firstn_cons in Hpre.
    apply Forall_cons in Hpre as [Hhead Hrest].
    set (r := Filter p ctx state volume poolInfo (world σ)) in *.
    destruct (status_cases r.1)
      as [Hs'|[(s & Hst & Hu' & Hs')|(s & cause & Hst & Hs' & Hu' & _)]].
    + rewrite RunFilterPlugins_range_success by exact Hs'. fold r.
      destruct (IH m (mkDriverState r.2
                        (calls σ ++ [mkCall FilterMethod (Name p)]))
                  i Hpl Hout Hrest Hs Hu) as (cause & Hcause & ->).
      exists cause. split; [done|].
      cbn [calls]. by rewrite firstn_cons, called_cons.
    + rewrite (RunFilterPlugins_range_unschedulable m p rest σ s)
        by assumption.
      fold r.
      destruct (IH (<[Name p := Some (named s (Name p))]> m)
                  (mkDriverState r.2
                        (calls σ ++ [mkCall FilterMethod (Name p)]))
                  i Hpl Hout Hrest Hs Hu) as (cause & Hcause & ->).
      exists cause. split; [done|].
      cbn [calls]. by rewrite firstn_cons, called_cons.
    + destruct Hhead as [Hp|Hp]; congruence.
Qed.

Lemma RunFilterPlugins_range_empty_result pls m σ :
  ∃ statuses σ',
    RunFilterPlugins_range ctx state volume poolInfo m pls σ
      = Ok (statuses, σ') ∧
    (statuses = ∅ ↔
       m = ∅ ∧
       Forall succeeded
         (outcomes ((fun pl => Filter pl ctx state volume poolInfo) <$> pls)
                   (world σ))).
Proof.
  revert m σ. induction pls as [|pl rest IH]; intros m σ.
  - exists m, σ. split; [done|]. simpl. split; [by intros ->|by intros [-> _]].
  - cbn [fmap list_fmap outcomes].
    set (r := Filter pl ctx state volume poolInfo (world σ)) in *.
    destruct (status_cases r.1)
      as [Hs|[(s & Hst & Hu & Hs)|(s & cause & Hst & Hs & Hu & Hcause)]].
    + rewrite RunFilterPlugins_range_success by exact Hs. fold r.
      destruct (IH m (mkDriverState r.2
                        (calls σ ++ [mkCall FilterMethod (Name pl)])))
        as (statuses & σ' & -> & Hiff).
      exists statuses, σ'. split; [done|]. rewrite Hiff, Forall_cons.
      cbn [world]. unfold succeeded at 2. tauto.
    + rewrite (RunFilterPlugins_range_unschedulable m pl rest σ s)
        by assumption.
      fold r.
      destruct (IH (<[Name pl := Some (named s (Name pl))]> m)
                   (mkDriverState r.2
                        (calls σ ++ [mkCall FilterMethod (Name pl)])))
        as (statuses & σ' & -> & Hiff).
      exists statuses, σ'. split; [done|]. rewrite Hiff, Forall_cons.
      unfold succeeded at 1. split.
      * intros [Hins _]. by apply insert_non_empty in Hins.
      * intros [_ [Hs' _]]. congruence.
    + rewrite (RunFilterPlugins_range_other m pl rest σ cause)
        by assumption.
      eexists _, _. split; [done|]. rewrite Forall_cons.
      unfold succeeded at 1. split.
      * intros Hsing. apply (f_equal (fun x => x !! Name pl)) in Hsing.
        rewrite lookup_singleton_eq, lookup_empty in Hsing. discriminate.
      * intros [_ [Hs' _]]. fold r in Hs'. congruence.
Qed.

(** C4. For one pool, [RunFilterPlugins] calls the filter plugins in
    registration order. While the plugins succeed or answer
    [Unschedulable] it goes on to the next one, and when all have
    answered so, every one has been called and the map returned holds,
    under each plugin name, the [Unschedulable] status recorded last
    for that name (its plugin name set), and nothing under any other
    name. The first plugin with any other status ends the run at once:
    the map returned holds that plugin's name alone, with an [Error]
    status that wraps its error, and no later plugin is called. The
    run always returns, and the map is empty exactly when every plugin
    succeeded. *)
Theorem RunFilterPlugins_collects_or_escalates (f : Framework) σ :
  let pls := filterPlugins f in
  let outs :=
    outcomes ((fun pl => Filter pl ctx state volume poolInfo) <$> pls)
             (world σ) in
  (Forall passed_or_unschedulable outs →
     ∃ statuses,
       RunFilterPlugins ctx state volume f poolInfo σ =
         Ok (statuses, mkDriverState (world_after outs (world σ))
                                     (calls σ ++ called FilterMethod pls)) ∧
       ∀ name, statuses !! name = Some <$> last (recorded name pls outs)) ∧
  (∀ i pl st w,
     pls !! i = Some pl → outs !! i = Some (st, w) →
     Forall passed_or_unschedulable (take i outs) →
     IsSuccess st = false → IsUnschedulable st = false →
     ∃ cause, AsError st = Some cause ∧
       RunFilterPlugins ctx state volume f poolInfo σ =
         Ok ({[ Name pl := Some (escalated "running " " filter plugin: "
                                           (Name pl) cause (Name pl)) ]},
             mkDriverState w
               (calls σ ++ called FilterMethod (take (S i) pls)))) ∧
  (∃ statuses σ',
     RunFilterPlugins ctx state volume f poolInfo σ = Ok (statuses, σ') ∧
     (statuses = ∅ ↔ Forall succeeded outs)).
Proof.
  intros pls outs. unfold RunFilterPlugins. fold pls.
  split; [|split].
  - intros Hall.
    destruct (RunFilterPlugins_range_collects pls ∅ σ Hall)
      as (statuses & Hrun & Hlook).
    exists statuses. split; [exact Hrun|].
    intros name. rewrite Hlook. fold outs.
    destruct (last (recorded name pls outs)); [done|apply lookup_empty].
  - apply RunFilterPlugins_range_escalates.
  - destruct (RunFilterPlugins_range_empty_result pls ∅ σ)
      as (statuses & σ' & Hrun & Hiff).
    exists statuses, σ'. split; [exact Hrun|]. rewrite Hiff. fold outs.
    tauto.
Qed.

End Filter.

(** *** Score *)

Lemma RunScorePlugins_calls_no_plugin (f : Framework)
    (pools : list StoragePool) σ :
  ∃ scores,
    RunScorePlugins ctx state volume f pools σ = Ok ((scores, None), σ) ∧
    ∀ name,
      scores !! name =
        if bool_decide (name ∈ Name <$> scorePlugins f)
        then Some (replicate (length pools) (mkPoolScore "" 0%Z))
        else None.
Proof.
  unfold RunScorePlugins. eexists. split; [reflexivity|].
  intros name. generalize (scorePlugins f). intros pls.
  induction pls as [|pl pls IH] using rev_ind.
  - cbn [foldl]. rewrite lookup_empty.
    rewrite bool_decide_eq_false_2; [done|]. rewrite fmap_nil.
    apply not_elem_of_nil.
  - rewrite foldl_snoc, fmap_app. cbn [fmap list_fmap].
    destruct (decide (Name pl = name)) as [<-|Hne].
    + rewrite lookup_insert_eq.
      rewrite bool_decide_eq_true_2; [done|].
      apply elem_of_app. right. by apply list_elem_of_singleton.
    + rewrite lookup_insert_ne by assumption. rewrite IH.
      apply (f_equal (fun b : bool => if b then _ else _)).
      apply bool_decide_ext. rewrite elem_of_app, list_elem_of_singleton.
      split; [by left|]. intros [Hin|Heq]; [done|]. by destruct Hne.
Qed.

Section Placement.
Variable pool cohort : ObjectReference.

(** *** Reserve and Unreserve *)

Lemma RunReservePluginsReserve_range_success pl rest σ :
  IsSuccess (Reserve pl ctx state volume pool cohort (world σ)).1 = true →
  RunReservePluginsReserve_range ctx state volume pool cohort (pl :: rest) σ =
    RunReservePluginsReserve_range ctx state volume pool cohort rest
      (mkDriverState (Reserve pl ctx state volume pool cohort (world σ)).2
                     (calls σ ++ [mkCall ReserveMethod (Name pl)])).
Proof.
  intros Hs. cbn [RunReservePluginsReserve_range].
  unfold runReservePluginReserve. driver_step.
  destruct (Reserve pl ctx state volume pool cohort (world σ)) as [st w].
  simpl in *. by rewrite Hs.
Qed.

Lemma RunReservePluginsReserve_range_failure pl rest σ cause :
  IsSuccess (Reserve pl ctx state volume pool cohort (world σ)).1 = false →
  AsError (Reserve pl ctx state volume pool cohort (world σ)).1 = Some cause →
  RunReservePluginsReserve_range ctx state volume pool cohort (pl :: rest) σ =
    Ok (Some (escalated "running Reserve plugin " ": " (Name pl) cause ""),
        mkDriverState (Reserve pl ctx state volume pool cohort (world σ)).2
                      (calls σ ++ [mkCall ReserveMethod (Name pl)])).
Proof.
  intros Hs Hcause. cbn [RunReservePluginsReserve_range].
  unfold runReservePluginReserve. driver_step.
  destruct (Reserve pl ctx state volume pool cohort (world σ)) as [st w].
  simpl in *. by rewrite Hs, Hcause.
Qed.

Lemma RunReservePluginsUnreserve_from_prefix (f : Framework) n σ :
  n ≤ length (reservePlugins f) →
  RunReservePluginsUnreserve_from ctx state volume pool cohort f n σ =
    Ok (tt,
        mkDriverState
          (unreserved ctx state volume pool cohort (reverse (take n (reservePlugins f))) (world σ))
          (calls σ ++
           called UnreserveMethod (reverse (take n (reservePlugins f))))).
Proof.
  revert σ. induction n as [|i IH]; intros σ Hn.
  - destruct σ. simpl. unfold mret, ST_ret, called. simpl.
    by rewrite app_nil_r.
  - cbn [RunReservePluginsUnreserve_from].
    destruct (lookup_lt_is_Some_2 (reservePlugins f) i) as [pl Hpl]; [lia|].
    rewrite Hpl. unfold runReservePluginUnreserve. driver_step.
    rewrite IH by lia. cbn [world calls].
    rewrite (take_S_r _ _ _ Hpl), reverse_snoc.
    unfold unreserved. cbn [foldl]. by rewrite called_cons.
Qed.

(** C3. [RunReservePluginsUnreserve] returns after one call of
    [Unreserve] on every reserve plugin of the registered list, made
    in the reverse of the registration order, whatever was done
    before. So with the plugins [A; B; C], when [Reserve] stopped at a
    failure of B (and was never called on C), the calls that follow
    are [Unreserve] on C, then B, then A. *)
Theorem RunReservePluginsUnreserve_reverse_order (f : Framework) σ :
  RunReservePluginsUnreserve ctx state volume pool cohort f σ =
    Ok (tt,
        mkDriverState
          (unreserved ctx state volume pool cohort (reverse (reservePlugins f)) (world σ))
          (calls σ ++ called UnreserveMethod (reverse (reservePlugins f)))) ∧
  ∀ A B C,
    reservePlugins f = [A; B; C] →
    let rA := Reserve A ctx state volume pool cohort (world σ) in
    let rB := Reserve B ctx state volume pool cohort rA.2 in
    IsSuccess rA.1 = true → IsSuccess rB.1 = false →
    ∃ failure σ1,
      RunReservePluginsReserve ctx state volume pool cohort f σ
        = Ok (Some failure, σ1) ∧
      code failure = Error ∧
      σ1 = mkDriverState rB.2
             (calls σ ++ [mkCall ReserveMethod (Name A);
                          mkCall ReserveMethod (Name B)]) ∧
      RunReservePluginsUnreserve ctx state volume pool cohort f σ1 =
        Ok (tt,
            mkDriverState
              (Unreserve A ctx state volume pool cohort
                 (Unreserve B ctx state volume pool cohort
                    (Unreserve C ctx state volume pool cohort rB.2)))
              (calls σ ++ [mkCall ReserveMethod (Name A);
                           mkCall ReserveMethod (Name B);
                           mkCall UnreserveMethod (Name C);
                           mkCall UnreserveMethod (Name B);
                           mkCall UnreserveMethod (Name A)])).
Proof.
  assert (Hall : ∀ σ',
    RunReservePluginsUnreserve ctx state volume pool cohort f σ' =
      Ok (tt,
          mkDriverState
            (unreserved ctx state volume pool cohort (reverse (reservePlugins f)) (world σ'))
            (calls σ' ++
             called UnreserveMethod (reverse (reservePlugins f))))).
  { intros σ'. unfold RunReservePluginsUnreserve.
    rewrite RunReservePluginsUnreserve_from_prefix by lia.
    by rewrite firstn_all. }
  split; [apply Hall|].
  intros A B C Hf rA rB HA HB.
  destruct (not_success_not_nil rB.1 HB) as (s & cause & Hst & Hc & Hcause).
  eexists _, _. split; [|split; [|split]].
  - unfold RunReservePluginsReserve. rewrite Hf.
    rewrite RunReservePluginsReserve_range_success by exact HA.
    rewrite (RunReservePluginsReserve_range_failure B [C] _ cause);
      [reflexivity|exact HB|exact Hcause].
  - reflexivity.
  - cbn [calls world]. fold rA rB. by rewrite <- app_assoc.
  - rewrite Hall, Hf. cbn [calls world]. fold rA rB.
    unfold called, unreserved. simpl.
    by rewrite <- !app_assoc.
Qed.

(** *** Bind *)

Lemma skipped_condition (o : option Status * World) :
  (match o.1 with Some _ => true | None => false end)
    && bool_decide (Status_Code o.1 = Skip) = true ↔ skipped o.
Proof.
  unfold skipped. destruct o as [[s|] w]; simpl.
  - rewrite bool_decide_eq_true. split; [eauto|].
    by intros (s' & [= <-] & Hc).
  - split; [done|]. by intros (s' & Hs & _).
Qed.

Lemma skipped_not_success (o : option Status * World) :
  skipped o → IsSuccess o.1 = false.
Proof.
  intros (s & Hs & Hc). rewrite Hs. unfold IsSuccess. simpl. rewrite Hc.
  reflexivity.
Qed.

Lemma RunBindPlugins_range_skip st0 bp rest σ :
  skipped (Bind bp ctx state volume pool cohort (world σ)) →
  RunBindPlugins_range ctx state volume pool cohort st0 (bp :: rest) σ =
    RunBindPlugins_range ctx state volume pool cohort
      (Bind bp ctx state volume pool cohort (world σ)).1 rest
      (mkDriverState (Bind bp ctx state volume pool cohort (world σ)).2
                     (calls σ ++ [mkCall BindMethod (Name bp)])).
Proof.
  intros Hk. apply skipped_condition in Hk.
  cbn [RunBindPlugins_range]. unfold runBindPlugin. driver_step.
  destruct (Bind bp ctx state volume pool cohort (world σ)) as [st w].
  cbn [fst snd] in *. by rewrite Hk.
Qed.

Lemma RunBindPlugins_range_success st0 bp rest σ :
  ¬ skipped (Bind bp ctx state volume pool cohort (world σ)) →
  IsSuccess (Bind bp ctx state volume pool cohort (world σ)).1 = true →
  RunBindPlugins_range ctx state volume pool cohort st0 (bp :: rest) σ =
    Ok ((Bind bp ctx state volume pool cohort (world σ)).1,
        mkDriverState (Bind bp ctx state volume pool cohort (world σ)).2
                      (calls σ ++ [mkCall BindMethod (Name bp)])).
Proof.
  intros Hk Hs. rewrite <- skipped_condition in Hk.
  apply not_true_is_false in Hk.
  cbn [RunBindPlugins_range]. unfold runBindPlugin. driver_step.
  destruct (Bind bp ctx state volume pool cohort (world σ)) as [st w].
  cbn [fst snd] in *. by rewrite Hk, Hs.
Qed.

Lemma RunBindPlugins_range_failure st0 bp rest σ cause :
  ¬ skipped (Bind bp ctx state volume pool cohort (world σ)) →
  IsSuccess (Bind bp ctx state volume pool cohort (world σ)).1 = false →
  AsError (Bind bp ctx state volume pool cohort (world σ)).1 = Some cause →
  RunBindPlugins_range ctx state volume pool cohort st0 (bp :: rest) σ =
    Ok (Some (escalated "running Bind plugin " ": " (Name bp) cause ""),
        mkDriverState (Bind bp ctx state volume pool cohort (world σ)).2
                      (calls σ ++ [mkCall BindMethod (Name bp)])).
Proof.
  intros Hk Hs Hcause. rewrite <- skipped_condition in Hk.
  apply not_true_is_false in Hk.
  cbn [RunBindPlugins_range]. unfold runBindPlugin. driver_step.
  destruct (Bind bp ctx state volume pool cohort (world σ)) as [st w].
  cbn [fst snd] in *. by rewrite Hk, Hs, Hcause.
Qed.

Lemma RunBindPlugins_range_all_skip bps st0 σ :
  Forall skipped
    (outcomes ((fun bp => Bind bp ctx state volume pool cohort) <$> bps)
              (world σ)) →
  RunBindPlugins_range ctx state volume pool cohort st0 bps σ =
    Ok (from_option fst st0
          (last (outcomes ((fun bp => Bind bp ctx state volume pool cohort)
                             <$> bps) (world σ))),
        mkDriverState
          (world_after
             (outcomes ((fun bp => Bind bp ctx state volume pool cohort)
                          <$> bps) (world σ)) (world σ))
          (calls σ ++ called BindMethod bps)).
Proof.
  revert st0 σ. induction bps as [|bp rest IH]; intros st0 σ Hall.
  - destruct σ. simpl. unfold mret, ST_ret, called. simpl.
    by rewrite app_nil_r.
  - cbn [fmap list_fmap outcomes] in *.
    apply Forall_cons in Hall as [Hk Hrest].
    rewrite RunBindPlugins_range_skip by exact Hk.
    rewrite IH by exact Hrest. cbn [world calls].
    rewrite world_after_cons, called_cons, last_cons.
    by destruct (last _).
Qed.

Lemma RunBindPlugins_range_first_answer bps st0 σ i bp st w :
  bps !! i = Some bp →
  outcomes ((fun bp => Bind bp ctx state volume pool cohort) <$> bps)
           (world σ) !! i = Some (st, w) →
  Forall skipped
    (take i (outcomes ((fun bp => Bind bp ctx state volume pool cohort)
                         <$> bps) (world σ))) →
  ¬ skipped (st, w) →
  (IsSuccess st = true →
     RunBindPlugins_range ctx state volume pool cohort st0 bps σ =
       Ok (st, mkDriverState w
                 (calls σ ++ called BindMethod (take (S i) bps)))) ∧
  (IsSuccess st = false →
     ∃ cause, AsError st = Some cause ∧
       RunBindPlugins_range ctx state volume pool cohort st0 bps σ =
         Ok (Some (escalated "running Bind plugin " ": " (Name bp) cause ""),
             mkDriverState w
               (calls σ ++ called BindMethod (take (S i) bps)))).
Proof.
  revert st0 σ i. induction bps as [|b rest IH];
    intros st0 σ i Hbp Hout Hpre Hk; [done|].
  destruct i as [|i]; cbn [fmap list_fmap outcomes] in *.
  - simpl in Hbp, Hout. injection Hbp as ->. injection Hout as Hout.
    split.
    + intros Hs. rewrite RunBindPlugins_range_success; rewrite Hout; done.
    + intros Hs.
      destruct (not_success_not_nil st Hs) as (s & cause & -> & Hc & Hcause).
      exists cause. split; [done|].
      rewrite (RunBindPlugins_range_failure st0 bp rest σ cause);
        rewrite Hout; done.
  - simpl in Hbp, Hout. rewrite firstn_cons in Hpre.
    apply Forall_cons in Hpre as [Hhead Hrest].
    rewrite RunBindPlugins_range_skip by exact Hhead.
    destruct (IH (Bind b ctx state volume pool cohort (world σ)).1
                (mkDriverState (Bind b ctx state volume pool cohort (world σ)).2
                   (calls σ ++ [mkCall BindMethod (Name b)]))
                i Hbp Hout Hrest Hk) as [IHs IHf].
    cbn [calls] in *. rewrite firstn_cons, <- called_cons.
    split; [exact IHs|exact IHf].
Qed.

Lemma RunBindPlugins_nonempty (f : Framework) σ :
  bindPlugins f ≠ [] →
  RunBindPlugins ctx state volume pool cohort f σ =
    RunBindPlugins_range ctx state volume pool cohort None (bindPlugins f) σ.
Proof.
  intros Hne. unfold RunBindPlugins.
  rewrite bool_decide_eq_false_2; [done|].
  by destruct (bindPlugins f).
Qed.

(** C6. With no bind plugin [RunBindPlugins] returns a status of its own
    with code [Skip], calling nothing. Otherwise it calls the bind
    plugins in registration order for as long as they answer [Skip]:
    when all of them do, the result is the [Skip] status of the last
    one; the first plugin whose answer is not a [Skip] ends the run, no
    later plugin being called, and the result is that answer itself
    when it is a success, and otherwise an [Error] status that wraps
    its error and names that plugin in its message. So with [A; B],
    A answering [Skip] and B a success, the result is B's answer. *)
Theorem RunBindPlugins_chains_over_Skip (f : Framework) σ :
  let bps := bindPlugins f in
  let outs :=
    outcomes ((fun bp => Bind bp ctx state volume pool cohort) <$> bps)
             (world σ) in
  (bps = [] →
     RunBindPlugins ctx state volume pool cohort f σ
       = Ok (Some (NewStatus Skip [""]), σ) ∧
     Status_Code (Some (NewStatus Skip [""])) = Skip) ∧
  (bps ≠ [] → Forall skipped outs →
     ∃ s, fst <$> last outs = Some (Some s) ∧ code s = Skip ∧
       RunBindPlugins ctx state volume pool cohort f σ =
         Ok (Some s, mkDriverState (world_after outs (world σ))
                                   (calls σ ++ called BindMethod bps))) ∧
  (∀ i bp st w,
     bps !! i = Some bp → outs !! i = Some (st, w) →
     Forall skipped (take i outs) → ¬ skipped (st, w) →
     (IsSuccess st = true →
        RunBindPlugins ctx state volume pool cohort f σ =
          Ok (st, mkDriverState w
                    (calls σ ++ called BindMethod (take (S i) bps)))) ∧
     (IsSuccess st = false →
        ∃ cause, AsError st = Some cause ∧
          RunBindPlugins ctx state volume pool cohort f σ =
            Ok (Some (escalated "running Bind plugin " ": " (Name bp)
                                cause ""),
                mkDriverState w
                  (calls σ ++ called BindMethod (take (S i) bps))))) ∧
  (∀ A B,
     bps = [A; B] →
     let rA := Bind A ctx state volume pool cohort (world σ) in
     let rB := Bind B ctx state volume pool cohort rA.2 in
     skipped rA → IsSuccess rB.1 = true →
     RunBindPlugins ctx state volume pool cohort f σ =
       Ok (rB.1, mkDriverState rB.2
                   (calls σ ++ [mkCall BindMethod (Name A);
                                mkCall BindMethod (Name B)]))).
Proof.
  intros bps outs. split; [|split; [|split]].
  - intros Hnil. split; [|reflexivity].
    unfold RunBindPlugins. fold bps. by rewrite Hnil.
  - intros Hne Hall. rewrite RunBindPlugins_nonempty by exact Hne.
    fold bps. rewrite RunBindPlugins_range_all_skip by exact Hall.
    fold outs.
    destruct (last outs) as [[st w]|] eqn:Hlast.
    + assert (Hk : skipped (st, w)).
      { rewrite Forall_forall in Hall. apply Hall.
        by apply last_Some_elem_of. }
      destruct Hk as (s & Hs & Hc). simpl in Hs. subst st.
      exists s. by repeat split.
    + apply last_None in Hlast. unfold outs in Hlast.
      destruct bps; [done|discriminate].
  - intros i bp st w Hbp Hout Hpre Hk.
    assert (Hne : bindPlugins f ≠ []).
    { fold bps. intros Hnil. by rewrite Hnil in Hbp. }
    rewrite RunBindPlugins_nonempty by exact Hne. fold bps.
    by apply RunBindPlugins_range_first_answer.
  - intros A B Hf rA rB HA HB.
    assert (Hne : bindPlugins f ≠ []) by (fold bps; by rewrite Hf).
    rewrite RunBindPlugins_nonempty by exact Hne. fold bps. rewrite Hf.
    rewrite RunBindPlugins_range_skip by exact HA. fold rA.
    rewrite RunBindPlugins_range_success; fold rB.
    + cbn [calls world]. by rewrite <- app_assoc.
    + intros Hk. apply skipped_not_success in Hk. cbn [world] in Hk.
      fold rB in Hk. congruence.
    + exact HB.
Qed.

End Placement.

End DriverProperties.

(** ** The driver on the example plugins *)

Section DriverExamples.
#[local] Existing Instance journal_Externals.

Lemma RunPreFilterPlugins_stops_at_first_failure_witness :
  RunPreFilterPlugins tt None tt prefilter_ABC start =
    Ok (Some (mkStatus Unschedulable ["no pool fits"] None "B"),
        mkDriverState ["A"; "B"]
          [mkCall PreFilterMethod "A"; mkCall PreFilterMethod "B"]).
Proof.
  pose proof (RunPreFilterPlugins_stops_at_first_failure
                tt None tt prefilter_ABC start) as Hspec.
  cbv zeta in Hspec. destruct Hspec as (_ & _ & Hspec).
  destruct (Hspec 1 (prefilter "B" (Some no_pool_fits)) (Some no_pool_fits)
              ["A"; "B"] eq_refl eq_refl) as (s & cause & Hst & _ & Hrun).
  - repeat constructor.
  - reflexivity.
  - injection Hst as <-. exact Hrun.
Defined.

(** C5, as the specification words it, fails: the [Unschedulable] status that
    [RunPreFilterPlugins] returns is not the status the plugin gave; its
    plugin name has been set. *)
Lemma RunPreFilterPlugins_sets_the_plugin_name :
  (PreFilter (prefilter "B" (Some no_pool_fits)) tt None tt []).1
    = Some no_pool_fits ∧
  pluginName no_pool_fits = "" ∧
  ∃ s σ', RunPreFilterPlugins tt None tt prefilter_B start = Ok (Some s, σ') ∧
          pluginName s = "B" ∧ s ≠ no_pool_fits.
Proof.
  split; [reflexivity|]. split; [reflexivity|].
  eexists _, _. split; [vm_compute; reflexivity|].
  split; [reflexivity|]. discriminate.
Qed.

Lemma RunFilterPlugins_collects_or_escalates_witness :
  ∃ statuses,
    RunFilterPlugins tt None tt filter_AB None start =
      Ok (statuses,
          mkDriverState ["A"; "B"]
            [mkCall FilterMethod "A"; mkCall FilterMethod "B"]) ∧
    statuses !! "A" = Some (Some (named no_pool_fits "A")) ∧
    statuses !! "B" = None ∧
    statuses ≠ ∅.
Proof.
  pose proof (RunFilterPlugins_collects_or_escalates
                tt None tt None filter_AB start) as Hspec.
  cbv zeta in Hspec. destruct Hspec as (Hspec & _ & _).
  destruct Hspec as (statuses & Hrun & Hlook).
  - apply Forall_cons_2; [right; reflexivity|].
    apply Forall_cons_2; [left; reflexivity|]. apply Forall_nil_2.
  - exists statuses. split; [exact Hrun|].
    split; [apply (Hlook "A")|]. split; [apply (Hlook "B")|].
    intros Hnil. pose proof (Hlook "A") as HA. rewrite Hnil in HA.
    discriminate HA.
Defined.

Lemma RunReservePluginsUnreserve_reverse_order_witness :
  ∃ failure σ1,
    RunReservePluginsReserve tt None tt "pool-1" "cohort-1" reserve_ABC start
      = Ok (Some failure, σ1) ∧
    RunReservePluginsUnreserve tt None tt "pool-1" "cohort-1" reserve_ABC σ1
      = Ok (tt,
            mkDriverState ["A"; "B"; "undo C"; "undo B"; "undo A"]
              [mkCall ReserveMethod "A"; mkCall ReserveMethod "B";
               mkCall UnreserveMethod "C"; mkCall UnreserveMethod "B";
               mkCall UnreserveMethod "A"]).
Proof.
  pose proof (RunReservePluginsUnreserve_reverse_order
                tt None tt "pool-1" "cohort-1" reserve_ABC start) as [_ Hspec].
  destruct (Hspec _ _ _ eq_refl eq_refl eq_refl)
    as (failure & σ1 & Hres & _ & _ & Hun).
  exists failure, σ1. split; [exact Hres|exact Hun].
Defined.

Lemma RunBindPlugins_chains_over_Skip_witness :
  RunBindPlugins tt None tt "pool-1" "cohort-1" bind_AB start =
    Ok (Some (NewStatus Success []),
        mkDriverState ["A"; "B"]
          [mkCall BindMethod "A"; mkCall BindMethod "B"]).
Proof.
  pose proof (RunBindPlugins_chains_over_Skip
                tt None tt "pool-1" "cohort-1" bind_AB start) as Hspec.
  cbv zeta in Hspec. destruct Hspec as (_ & _ & _ & Hspec).
  apply (Hspec _ _ eq_refl).
  - eexists. split; reflexivity.
  - reflexivity.
Defined.

(** C1. With one scoring plugin A whose [Score] answers 1000 for every
    pool, and one pool, [RunScorePlugins] returns for A one zero-valued
    score (empty pool name, score 0) and a nil status, and calls nothing:
    the journal and the record of calls stay empty. *)
Theorem RunScorePlugins_never_calls_Score :
  (Score (scorer "A" 1000) tt None tt "pool-1" "cohort-1" []).1
    = (1000%Z, None) ∧
  RunScorePlugins tt None tt score_A ["pool-1"] start =
    Ok (({[ "A" := [mkPoolScore "" 0%Z] ]}, None), start).
Proof. split; [reflexivity|]. vm_compute. reflexivity. Qed.

End DriverExamples.

(** ** Further properties of the status model *)

Lemma string_app_assoc (s1 s2 s3 : string) :
  (s1 +:+ s2) +:+ s3 = s1 +:+ (s2 +:+ s3).
Proof.
  induction s1 as [|c s1 IH]; [reflexivity|].
  change (String c ((s1 +:+ s2) +:+ s3) = String c (s1 +:+ (s2 +:+ s3))).
  by rewrite IH.
Qed.

Lemma strings_Join_snoc (elems : list string) (sep x : string) :
  strings_Join (elems ++ [x]) sep =
    match elems with
    | [] => x
    | _ :: _ => strings_Join elems sep +:+ sep +:+ x
    end.
Proof.
  induction elems as [|e elems IH]; [reflexivity|].
  destruct elems as [|e' elems]; [reflexivity|].
  change (strings_Join ((e :: e' :: elems) ++ [x]) sep)
    with (e +:+ sep +:+ strings_Join ((e' :: elems) ++ [x]) sep).
  rewrite IH.
  change (strings_Join (e :: e' :: elems) sep)
    with (e +:+ sep +:+ strings_Join (e' :: elems) sep).
  by rewrite !string_app_assoc.
Qed.

(** X1. Wrapping an error in a status and asking for the error back gives
    that very error: [AsStatus err] has code [Error], is neither a success
    nor unschedulable, has the message of [err] as its only reason and as
    its [Message], no plugin name, and [AsError] returns [err]. *)
Theorem AsStatus_AsError_round_trip (e : GoError) :
  AsError (Some (AsStatus e)) = Some e ∧
  Status_Code (Some (AsStatus e)) = Error ∧
  IsSuccess (Some (AsStatus e)) = false ∧
  IsUnschedulable (Some (AsStatus e)) = false ∧
  Reasons (Some (AsStatus e)) = Ok [error_Error e] ∧
  Message (Some (AsStatus e)) = error_Error e ∧
  PluginName (Some (AsStatus e)) = Ok "".
Proof. repeat split. Qed.

(** X2. The error of a constructed status carries its message: for every
    code but [Success], [AsError] of [NewStatus code reasons] is a new
    error whose text is the reasons joined by a comma and a blank, the same
    for code [Error] (where it is made at construction) and for the other
    codes (where it is made on demand); for [Success] it is nil, whatever
    the reasons. *)
Theorem NewStatus_AsError (c : Z) (rs : list string) :
  Status_Code (Some (NewStatus c rs)) = c ∧
  Message (Some (NewStatus c rs)) = strings_Join rs ", " ∧
  AsError (Some (NewStatus c rs)) =
    if bool_decide (c = Success) then None
    else Some (errors_New (strings_Join rs ", ")).
Proof.
  unfold NewStatus, AsError, IsSuccess.
  destruct (bool_decide_reflect (c = Error)) as [->|Hne]; simpl.
  - repeat split.
  - repeat split.
Qed.

(** X3. Setting the plugin name of a status changes nothing else: code,
    reasons, message and error are as before and [PluginName] reads the new
    name back; a second [SetPluginName] overrides the first. On a nil
    status [SetPluginName], [WithPluginName], [PluginName] and [Reasons]
    panic, while [Code], [Message], [IsSuccess], [IsUnschedulable] and
    [AsError] answer as for an empty [Success]. *)
Theorem SetPluginName_changes_the_name_only (s : Status) (plugin other : string) :
  (∃ s', SetPluginName (Some s) plugin = Ok s' ∧
         WithPluginName (Some s) plugin = Ok s' ∧
         PluginName (Some s') = Ok plugin ∧
         Status_Code (Some s') = Status_Code (Some s) ∧
         Reasons (Some s') = Reasons (Some s) ∧
         Message (Some s') = Message (Some s) ∧
         AsError (Some s') = AsError (Some s) ∧
         SetPluginName (Some s') other = SetPluginName (Some s) other) ∧
  SetPluginName None plugin = Panic ∧ WithPluginName None plugin = Panic ∧
  PluginName None = Panic ∧ Reasons None = Panic ∧
  Message None = "" ∧ IsUnschedulable None = false.
Proof.
  split; [|repeat split].
  eexists. split; [reflexivity|]. split; [reflexivity|].
  destruct s as [c rs e n]. repeat split.
Qed.

(** X4. [AppendReason] adds the reason at the end and nothing else:
    the message grows by a comma, a blank and the reason (by the reason
    alone when there was none before), and code, error and plugin name
    stay. *)
Theorem AppendReason_extends_Message (s : Status) (reason : string) :
  Reasons (Some (AppendReason s reason)) = Ok (reasons s ++ [reason]) ∧
  Message (Some (AppendReason s reason)) =
    match reasons s with
    | [] => reason
    | _ :: _ => Message (Some s) +:+ ", " +:+ reason
    end ∧
  Status_Code (Some (AppendReason s reason)) = Status_Code (Some s) ∧
  err (AppendReason s reason) = err s ∧
  PluginName (Some (AppendReason s reason)) = PluginName (Some s).
Proof.
  repeat split. unfold Message, AppendReason. cbn [reasons].
  apply strings_Join_snoc.
Qed.

(** The statuses of a map and of an order of it, when none is nil. *)
Lemma members_of_order (order : list (string * option Status)) :
  (∃ k, (k, None) ∈ order) ∨ (∃ ss, order.*2 = Some <$> ss).
Proof.
  induction order as [|[k [s|]] order IH].
  - right. by exists [].
  - destruct IH as [[k' Hk']|[ss Hss]].
    + left. exists k'. by constructor.
    + right. exists (s :: ss). rewrite !fmap_cons. by rewrite Hss.
  - left. exists k. constructor.
Qed.

Lemma Merge_loop_nil_member acc (order : list (string * option Status)) k :
  (k, None) ∈ order → Merge_loop acc order = Panic.
Proof.
  revert acc. induction order as [|[k' s] order IH]; intros acc Hin.
  - by apply elem_of_nil in Hin.
  - cbn [Merge_loop]. destruct s as [s|].
    + rewrite Merge_body_Some. simpl. apply IH.
      apply elem_of_cons in Hin as [Heq|Hin]; [discriminate|done].
    + by rewrite Merge_body_nil.
Qed.

Lemma Merge_nil_member (p : gmap string (option Status))
    (order : list (string * option Status)) (k : string) :
  range_order p order → p !! k = Some None → Merge p order = Panic.
Proof.
  intros Horder Hk.
  assert (Hin : (k, None) ∈ order).
  { unfold range_order in Horder. rewrite Horder.
    by apply elem_of_map_to_list. }
  unfold Merge. rewrite bool_decide_eq_false_2.
  - by rewrite (Merge_loop_nil_member _ _ k Hin).
  - apply map_size_non_empty_iff. intros ->. by rewrite lookup_empty in Hk.
Qed.

(** X5. A nil status anywhere in a map makes [Merge] panic, in whatever
    order the loop visits the map: the loop reads [s.reasons] of every
    member. *)
Theorem Merge_panics_on_nil_member (p : gmap string (option Status))
    (order : list (string * option Status)) (k : string) :
  range_order p order → p !! k = Some None → Merge p order = Panic.
Proof. apply Merge_nil_member. Qed.

Lemma Merge_panics_on_nil_member_witness :
  Merge {[ "A" := Some unschedulable_A; "B" := None ]}
        [("B", None); ("A", Some unschedulable_A)] = Panic.
Proof.
  apply (Merge_panics_on_nil_member _ _ "B").
  - apply (range_order_list_to_map [("B", None); ("A", Some unschedulable_A)]).
    apply (bool_decide_unpack _). vm_compute. exact I.
  - vm_compute. reflexivity.
Defined.

Lemma precedence_determines_code (c1 c2 : Z) :
  precedence c1 = precedence c2 → precedence c1 ≠ 0%Z → c1 = c2.
Proof.
  rewrite !precedence_cases. unfold Success, Error, Unschedulable.
  repeat case_decide; lia.
Qed.

Lemma max_precedence_Permutation (ss1 ss2 : list Status) :
  ss1 ≡ₚ ss2 → max_precedence ss1 = max_precedence ss2.
Proof. induction 1; simpl; lia. Qed.

Lemma max_precedence_attained (ss : list Status) :
  ss ≠ [] → ∃ s, s ∈ ss ∧ precedence (code s) = max_precedence ss.
Proof.
  induction ss as [|s ss IH]; [done|]. intros _.
  destruct ss as [|s' ss].
  - exists s. split; [constructor|]. simpl.
    pose proof (precedence_lower_bound (code s)). lia.
  - destruct IH as (t & Ht & Hmax); [done|].
    destruct (Z.le_gt_cases (max_precedence (s' :: ss)) (precedence (code s))).
    + exists s. split; [constructor|]. cbn [max_precedence] in *. lia.
    + exists t. split; [by constructor|]. cbn [max_precedence] in *. lia.
Qed.

Lemma members_Permutation (o1 o2 : list (string * option Status)) ss1 ss2 :
  o1 ≡ₚ o2 → o1.*2 = Some <$> ss1 → o2.*2 = Some <$> ss2 → ss1 ≡ₚ ss2.
Proof.
  intros Hperm H1 H2.
  assert (Homap : ∀ ss : list Status, omap id (Some <$> ss) = ss).
  { induction ss as [|s ss IH]; [reflexivity|].
    rewrite fmap_cons. cbn [omap list_omap id]. by rewrite IH. }
  rewrite <- (Homap ss1), <- (Homap ss2), <- H1, <- H2.
  by rewrite Hperm.
Qed.

(** The merged status of members that are not nil, member by member. *)
Lemma Merge_members_summary (p : gmap string (option Status))
    (order : list (string * option Status)) (ss : list Status) :
  p ≠ ∅ → range_order p order → order.*2 = Some <$> ss →
  ∃ final, Merge p order = Ok (Some final) ∧
    precedence (code final) = max_precedence ss ∧
    (∃ s, s ∈ ss ∧ precedence (code s) = max_precedence ss) ∧
    reasons final = mjoin (reasons <$> ss) ∧
    err final = last_Error_cause ss.
Proof.
  intros Hne Horder Hss.
  destruct (Merge_of_members p order ss Hne Horder Hss) as [Hnil ->].
  eexists. split; [reflexivity|].
  pose proof (max_precedence_lower_bound ss) as Hlow.
  split; [rewrite merged_precedence; simpl; lia|].
  split; [by apply max_precedence_attained|].
  split; [by rewrite merged_reasons|by rewrite merged_err].
Qed.

(** X6. What the code of a merge is. For a non-empty map of statuses that
    are not nil, in any order: the merged status is a success exactly when
    every member has code [Success] (and then [AsError] of it is nil); its
    code is [Error] exactly when some member has code [Error]; and it is
    [Unschedulable] exactly when some member is unschedulable and none has
    code [Error]. *)
Theorem Merge_code_by_members (p : gmap string (option Status))
    (order : list (string * option Status)) (ss : list Status) :
  p ≠ ∅ → range_order p order → order.*2 = Some <$> ss →
  ∃ final, Merge p order = Ok (Some final) ∧
    (IsSuccess (Some final) = true ↔ Forall (fun s => code s = Success) ss) ∧
    (AsError (Some final) = None ↔ Forall (fun s => code s = Success) ss) ∧
    (code final = Error ↔ Exists (fun s => code s = Error) ss) ∧
    (code final = Unschedulable ↔
       Exists (fun s => code s = Unschedulable) ss ∧
       ¬ Exists (fun s => code s = Error) ss).
Proof.
  intros Hne Horder Hss.
  destruct (Merge_members_summary p order ss Hne Horder Hss)
    as (final & Hm & Hprec & (t & Ht & Htmax) & _ & _).
  exists final. split; [exact Hm|].
  assert (Hup : ∀ s, s ∈ ss → (precedence (code s) <= precedence (code final))%Z).
  { intros s Hs. rewrite Hprec. by apply max_precedence_upper_bound. }
  assert (Hall : code final = Success ↔ Forall (fun s => code s = Success) ss).
  { rewrite Forall_forall. split.
    - intros Hc s Hs. apply precedence_Success_inv.
      specialize (Hup s Hs). rewrite Hc in Hup.
      pose proof (precedence_lower_bound (code s)). lia.
    - intros Hs. apply precedence_Success_inv.
      rewrite Hprec, <- Htmax. by rewrite (Hs t Ht). }
  assert (Herr : code final = Error ↔ Exists (fun s => code s = Error) ss).
  { rewrite Exists_exists. split.
    - intros Hc. exists t. split; [exact Ht|].
      apply precedence_determines_code; rewrite Htmax, <- Hprec, Hc; done.
    - intros (s & Hs & Hc). specialize (Hup s Hs). rewrite Hc in Hup.
      revert Hup. rewrite !precedence_cases.
      unfold Success, Error, Unschedulable. repeat case_decide; lia. }
  split; [|split; [|split]].
  - unfold IsSuccess. cbn [Status_Code]. by rewrite bool_decide_eq_true.
  - rewrite <- Hall. unfold AsError, IsSuccess. cbn [Status_Code].
    case_bool_decide; [done|]. destruct (err final); split; intros; done.
  - exact Herr.
  - rewrite <- Herr, Exists_exists. split.
    + intros Hc. split; [|rewrite Hc; discriminate].
      exists t. split; [exact Ht|].
      apply precedence_determines_code; rewrite Htmax, <- Hprec, Hc; done.
    + intros [(s & Hs & Hc) Hne']. specialize (Hup s Hs). rewrite Hc in Hup.
      revert Hup Hne'. rewrite !precedence_cases.
      unfold Success, Error, Unschedulable. repeat case_decide; lia.
Qed.

Lemma highest_code_cases (final : Status) (ss : list Status) :
  precedence (code final) = max_precedence ss → ss ≠ [] →
  (code final = Error ↔ Exists (fun s => code s = Error) ss) ∧
  (code final = Success ↔ Forall (fun s => code s = Success) ss).
Proof.
  intros Hprec Hne.
  destruct (max_precedence_attained ss Hne) as (t & Ht & Htmax).
  assert (Hup : ∀ s, s ∈ ss → (precedence (code s) <= precedence (code final))%Z).
  { intros s Hs. rewrite Hprec. by apply max_precedence_upper_bound. }
  split.
  - rewrite Exists_exists. split.
    + intros Hc. exists t. split; [exact Ht|].
      apply precedence_determines_code; rewrite Htmax, <- Hprec, Hc; done.
    + intros (s & Hs & Hc). specialize (Hup s Hs). rewrite Hc in Hup.
      revert Hup. rewrite !precedence_cases.
      unfold Success, Error, Unschedulable. repeat case_decide; lia.
  - rewrite Forall_forall. split.
    + intros Hc s Hs. apply precedence_Success_inv.
      specialize (Hup s Hs). rewrite Hc in Hup.
      pose proof (precedence_lower_bound (code s)). lia.
    + intros Hs. apply precedence_Success_inv.
      rewrite Hprec, <- Htmax. by rewrite (Hs t Ht).
Qed.

(** X7. What [AsError] of a merge is. For a non-empty map of statuses that
    are not nil, in any order: when some member has code [Error], it is
    [AsError] of one of the [Error]-coded members, the one met last; when
    no member has code [Error] and not all are successes, it is a new error
    whose text is all the reasons of all the members, in the order met,
    joined by a comma and a blank. *)
Theorem Merge_AsError_by_members (p : gmap string (option Status))
    (order : list (string * option Status)) (ss : list Status) :
  p ≠ ∅ → range_order p order → order.*2 = Some <$> ss →
  ∃ final, Merge p order = Ok (Some final) ∧
    (Exists (fun s => code s = Error) ss →
       ∃ s e, last (filter (fun s => code s = Error) ss) = Some s ∧
              s ∈ ss ∧ code s = Error ∧
              AsError (Some s) = Some e ∧ AsError (Some final) = Some e) ∧
    (¬ Exists (fun s => code s = Error) ss →
     ¬ Forall (fun s => code s = Success) ss →
       AsError (Some final) =
         Some (errors_New (strings_Join (mjoin (reasons <$> ss)) ", "))).
Proof.
  intros Hne Horder Hss.
  destruct (Merge_members_summary p order ss Hne Horder Hss)
    as (final & Hm & Hprec & (t & Ht & _) & Hreasons & Herr).
  assert (Hnil : ss ≠ []) by (intros ->; by apply elem_of_nil in Ht).
  destruct (highest_code_cases final ss Hprec Hnil) as [HE HS].
  exists final. split; [exact Hm|]. split.
  - intros Hex. pose proof (proj2 HE Hex) as Hc.
    unfold last_Error_cause in Herr.
    destruct (last (filter (fun s => code s = Error) ss)) as [s|] eqn:Hlast.
    + pose proof (last_Some_elem_of _ _ Hlast) as Hin.
      apply list_elem_of_filter in Hin as [Hcs Hin].
      assert (Hsome : ∃ e, AsError (Some s) = Some e).
      { unfold AsError, IsSuccess. cbn [Status_Code]. rewrite Hcs.
        rewrite bool_decide_eq_false_2 by discriminate.
        destruct (err s); eauto. }
      destruct Hsome as [e He]. exists s, e. repeat split; try done.
      unfold AsError at 1. unfold IsSuccess. cbn [Status_Code]. rewrite Hc.
      rewrite bool_decide_eq_false_2 by discriminate.
      by rewrite Herr, He.
    + exfalso. apply last_None in Hlast.
      apply Exists_exists in Hex as (s & Hs & Hcs).
      assert (Hin : s ∈ filter (fun s => code s = Error) ss)
        by (by apply list_elem_of_filter).
      rewrite Hlast in Hin. by apply elem_of_nil in Hin.
  - intros Hno Hnot. unfold AsError, IsSuccess. cbn [Status_Code].
    rewrite bool_decide_eq_false_2 by (intros Hc; by apply Hnot, HS).
    unfold last_Error_cause in Herr.
    destruct (last (filter (fun s => code s = Error) ss)) as [s|] eqn:Hlast.
    + exfalso. apply Hno. apply Exists_exists. exists s.
      pose proof (last_Some_elem_of _ _ Hlast) as Hin.
      apply list_elem_of_filter in Hin as [Hcs Hin]. done.
    + rewrite Herr. unfold Message. by rewrite Hreasons.
Qed.

(** X8. The order in which [range] visits the map decides little. For two
    orders of one map: both merges panic (a nil member), or both return
    nil (the empty map), or both return a status, and then the two codes
    have the same precedence, are the same code whenever that precedence is
    not the one [Wait], [Skip] and unknown codes share, both or neither are
    a success, and the two reasons lists hold the same reasons up to
    order. *)
Theorem Merge_order_independence (p : gmap string (option Status))
    (o1 o2 : list (string * option Status)) :
  range_order p o1 → range_order p o2 →
  (Merge p o1 = Panic ∧ Merge p o2 = Panic) ∨
  (p = ∅ ∧ Merge p o1 = Ok None ∧ Merge p o2 = Ok None) ∨
  (∃ f1 f2, Merge p o1 = Ok (Some f1) ∧ Merge p o2 = Ok (Some f2) ∧
     precedence (code f1) = precedence (code f2) ∧
     (precedence (code f1) ≠ 0%Z → code f1 = code f2) ∧
     IsSuccess (Some f1) = IsSuccess (Some f2) ∧
     reasons f1 ≡ₚ reasons f2).
Proof.
  intros H1 H2.
  destruct (decide (p = ∅)) as [->|Hne].
  { right. left. unfold Merge. rewrite map_size_empty. done. }
  destruct (members_of_order o1) as [[k Hk]|[ss1 Hss1]].
  { left. assert (Hp : p !! k = Some None).
    { apply elem_of_map_to_list. unfold range_order in H1. by rewrite <- H1. }
    split; by apply (Merge_nil_member _ _ k). }
  destruct (members_of_order o2) as [[k Hk]|[ss2 Hss2]].
  { left. assert (Hp : p !! k = Some None).
    { apply elem_of_map_to_list. unfold range_order in H2. by rewrite <- H2. }
    split; by apply (Merge_nil_member _ _ k). }
  right. right.
  assert (Hperm : ss1 ≡ₚ ss2).
  { apply (members_Permutation o1 o2); [|done|done].
    unfold range_order in *. by rewrite H1, H2. }
  destruct (Merge_members_summary p o1 ss1 Hne H1 Hss1)
    as (f1 & Hm1 & Hp1 & _ & Hr1 & _).
  destruct (Merge_members_summary p o2 ss2 Hne H2 Hss2)
    as (f2 & Hm2 & Hp2 & _ & Hr2 & _).
  assert (Hprec : precedence (code f1) = precedence (code f2)).
  { rewrite Hp1, Hp2. by apply max_precedence_Permutation. }
  exists f1, f2. repeat split; try done.
  - by apply precedence_determines_code.
  - unfold IsSuccess. cbn [Status_Code]. apply bool_decide_ext. split.
    + intros Hc. apply precedence_Success_inv. by rewrite <- Hprec, Hc.
    + intros Hc. apply precedence_Success_inv. by rewrite Hprec, Hc.
  - rewrite Hr1, Hr2. by rewrite Hperm.
Qed.

(** The exception of X8 is real: with a [Wait] and a [Skip] member the code
    of the merge is the one met first. *)
Lemma Merge_code_depends_on_order_for_Wait_and_Skip :
  let waiting := mkStatus Wait ["hold"] None "A" in
  let skipping := mkStatus Skip ["pass"] None "B" in
  let p : gmap string (option Status) :=
    {[ "A" := Some waiting; "B" := Some skipping ]} in
  ∃ f1 f2,
    Merge p [("A", Some waiting); ("B", Some skipping)] = Ok (Some f1) ∧
    Merge p [("B", Some skipping); ("A", Some waiting)] = Ok (Some f2) ∧
    code f1 = Wait ∧ code f2 = Skip.
Proof.
  eexists _, _. split; [vm_compute; reflexivity|].
  split; [vm_compute; reflexivity|]. split; reflexivity.
Qed.

Lemma Merge_code_by_members_witness :
  ∃ final, Merge (list_to_map two_unschedulable) two_unschedulable
             = Ok (Some final) ∧
    IsSuccess (Some final) = false ∧ code final = Unschedulable.
Proof.
  destruct two_unschedulable_inputs as (H1 & H2 & H3).
  destruct (Merge_code_by_members _ _ _ H1 H2 H3)
    as (final & Hm & Hs & _ & _ & Hu).
  exists final. split; [exact Hm|]. split.
  - apply not_true_is_false. intros E.
    apply (proj1 Hs) in E. apply Forall_cons in E as [E _]. discriminate E.
  - apply Hu. split.
    + apply Exists_cons_hd. reflexivity.
    + intros Hex. apply Exists_cons in Hex as [Hex|Hex]; [discriminate Hex|].
      apply Exists_cons in Hex as [Hex|Hex]; [discriminate Hex|].
      by apply Exists_nil in Hex.
Defined.

Lemma Merge_AsError_by_members_witness :
  ∃ final, Merge (list_to_map two_unschedulable) two_unschedulable
             = Ok (Some final) ∧
    AsError (Some final) = Some (errors_New "pool too small, wrong zone").
Proof.
  destruct two_unschedulable_inputs as (H1 & H2 & H3).
  destruct (Merge_AsError_by_members _ _ _ H1 H2 H3) as (final & Hm & _ & He).
  exists final. split; [exact Hm|]. apply He.
  - intros Hex. apply Exists_cons in Hex as [Hex|Hex]; [discriminate Hex|].
    apply Exists_cons in Hex as [Hex|Hex]; [discriminate Hex|].
    by apply Exists_nil in Hex.
  - intros Hall. apply Forall_cons in Hall as [Hall _]. discriminate Hall.
Defined.

Lemma Merge_order_independence_witness :
  ∃ f1 f2,
    Merge (list_to_map two_unschedulable) two_unschedulable = Ok (Some f1) ∧
    Merge (list_to_map two_unschedulable) (reverse two_unschedulable)
      = Ok (Some f2) ∧
    code f1 = code f2 ∧ reasons f1 ≡ₚ reasons f2 ∧
    pluginName f1 = "A" ∧ pluginName f2 = "B".
Proof.
  destruct two_unschedulable_inputs as (_ & H2 & _).
  assert (H2' : range_order (list_to_map two_unschedulable)
                  (reverse two_unschedulable)).
  { unfold range_order in *. by rewrite reverse_Permutation. }
  destruct (Merge_order_independence _ _ _ H2 H2')
    as [[Hp _]|[(Hp & _)|(f1 & f2 & Hm1 & Hm2 & Hprec & Hcode & _ & Hr)]].
  - vm_compute in Hp. discriminate Hp.
  - apply (f_equal (fun m => m !! "A")) in Hp. vm_compute in Hp.
    discriminate Hp.
  - exists f1, f2. split; [exact Hm1|]. split; [exact Hm2|].
    assert (E1 : f1 = mkStatus Unschedulable ["pool too small"; "wrong zone"]
                        None "A").
    { vm_compute in Hm1. by injection Hm1 as <-. }
    assert (E2 : f2 = mkStatus Unschedulable ["wrong zone"; "pool too small"]
                        None "B").
    { vm_compute in Hm2. by injection Hm2 as <-. }
    split; [apply Hcode; rewrite E1; vm_compute; discriminate|].
    split; [exact Hr|]. by rewrite E1, E2.
Defined.

(** ** Further properties of the cycle state *)

Section CycleStateMore.
Context {D : Type} `{!StateData D}.
Implicit Types (h : gmap nat (CycleState D)) (m : gmap string D).

Lemma Delete_allocated h a m k :
  h !! a = Some (mkCycleState m) →
  Delete (Some a) k h = Ok (tt, <[a := mkCycleState (delete k m)]> h).
Proof. intros Ha. unfold Delete, deref. by rewrite Ha. Qed.

Lemma Clone_allocated h a m (order : list (string * D)) :
  range_order m order →
  Clone (Some a) order h =
    Ok (Some (fresh (dom h)),
        <[fresh (dom h) := mkCycleState (StateData_Clone <$> m)]> h).
Proof.
  intros Horder. unfold Clone, NewCycleState. unfold mbind, ST_bind.
  rewrite (Clone_loop_allocated order _ (fresh (dom h)) ∅)
    by apply lookup_insert_eq.
  rewrite (cloned_storage m order Horder).
  by rewrite insert_insert_eq.
Qed.

(** X9. What is written is read back, and only that changes. After
    [Write] of [v] under [k] to an allocated cycle state, [Read] of [k]
    finds [v] with a nil error; [Read] of every other key, and every other
    cycle state, is as before; and a [Write] under the same key after it
    leaves the same heap as that [Write] alone (the last write wins). *)
Theorem Write_then_Read h a m k v :
  h !! a = Some (mkCycleState m) →
  ∃ h1, Write (Some a) k v h = Ok (tt, h1) ∧
    returned (Read (Some a) k) h1 = Ok (Some v, None) ∧
    (∀ k', k' ≠ k →
       returned (Read (Some a) k') h1 = returned (Read (Some a) k') h) ∧
    (∀ b, b ≠ a → h1 !! b = h !! b) ∧
    (∀ v', Write (Some a) k v' h1 = Write (Some a) k v' h).
Proof.
  intros Ha. eexists. split; [apply (Write_allocated _ _ _ _ _ Ha)|].
  split; [|split; [|split]].
  - unfold returned. erewrite Read_allocated by apply lookup_insert_eq.
    by rewrite lookup_insert_eq.
  - intros k' Hk. unfold returned.
    erewrite Read_allocated by apply lookup_insert_eq.
    rewrite (Read_allocated _ _ _ _ Ha). by rewrite lookup_insert_ne.
  - intros b Hb. by rewrite lookup_insert_ne.
  - intros v'. erewrite Write_allocated by apply lookup_insert_eq.
    rewrite (Write_allocated _ _ _ _ _ Ha).
    by rewrite !insert_insert_eq.
Qed.

(** X10. After [Delete] of [k] from an allocated cycle state, [Read] of
    [k] gives no value and [ErrNotFound]; [Read] of every other key, and
    every other cycle state, is as before; deleting a key that is not
    there changes nothing and is no error; and a second [Delete] of [k]
    changes nothing more. *)
Theorem Delete_then_Read h a m k :
  h !! a = Some (mkCycleState m) →
  ∃ h1, Delete (Some a) k h = Ok (tt, h1) ∧
    returned (Read (Some a) k) h1 = Ok (None, Some ErrNotFound) ∧
    (∀ k', k' ≠ k →
       returned (Read (Some a) k') h1 = returned (Read (Some a) k') h) ∧
    (∀ b, b ≠ a → h1 !! b = h !! b) ∧
    (m !! k = None → h1 = h) ∧
    Delete (Some a) k h1 = Ok (tt, h1).
Proof.
  intros Ha. eexists. split; [apply (Delete_allocated _ _ _ _ Ha)|].
  split; [|split; [|split; [|split]]].
  - unfold returned. erewrite Read_allocated by apply lookup_insert_eq.
    by rewrite lookup_delete_eq.
  - intros k' Hk. unfold returned.
    erewrite Read_allocated by apply lookup_insert_eq.
    rewrite (Read_allocated _ _ _ _ Ha). by rewrite lookup_delete_ne.
  - intros b Hb. by rewrite lookup_insert_ne.
  - intros Hk. rewrite delete_id by exact Hk. by apply insert_id.
  - erewrite Delete_allocated by apply lookup_insert_eq.
    rewrite insert_insert_eq. by rewrite delete_delete_eq.
Qed.

(** X11. [NewCycleState] returns a cycle state at an address that was not
    allocated, in which [Read] of every key gives [ErrNotFound], and leaves
    every cycle state there was as it is. *)
Theorem NewCycleState_is_empty_and_fresh h :
  ∃ a h1, NewCycleState h = Ok (Some a, h1) ∧
    h !! a = None ∧
    (∀ k, returned (Read (Some a) k) h1 = Ok (None, Some ErrNotFound)) ∧
    (∀ b, b ≠ a → h1 !! b = h !! b).
Proof.
  eexists _, _. split; [reflexivity|]. split; [|split].
  - apply not_elem_of_dom, is_fresh.
  - intros k. unfold returned.
    erewrite Read_allocated by apply lookup_insert_eq.
    by rewrite lookup_empty.
  - intros b Hb. by rewrite lookup_insert_ne.
Qed.

(** X12. Through a nil pointer [Read], [Write] and [Delete] panic, while
    [Clone] returns nil and allocates nothing; so do [Read], [Write] and
    [Delete] on the result of cloning nil. *)
Theorem nil_CycleState_operations h k v (order : list (string * D)) :
  Read None k h = Panic ∧ Write None k v h = Panic ∧ Delete None k h = Panic ∧
  Clone None order h = Ok (None, h) ∧
  (c ← Clone None order; Read c k) h = Panic ∧
  (c ← Clone None order; Write c k v) h = Panic ∧
  (c ← Clone None order; Delete c k) h = Panic.
Proof. repeat split. Qed.


(** X14. A cycle state and its clone are independent under [Delete] as
    well: after [Clone], deleting a key from either of the two leaves what
    [Read] returns from the other, for every key, as it was. *)
Theorem Clone_then_Delete h a m (order : list (string * D)) k :
  h !! a = Some (mkCycleState m) → range_order m order →
  ∃ a' h', Clone (Some a) order h = Ok (Some a', h') ∧
    (∃ h1, Delete (Some a) k h' = Ok (tt, h1) ∧
       returned (Read (Some a) k) h1 = Ok (None, Some ErrNotFound) ∧
       ∀ k', returned (Read (Some a') k') h1
             = Ok (found_or_not (StateData_Clone <$> m !! k'))) ∧
    (∃ h2, Delete (Some a') k h' = Ok (tt, h2) ∧
       returned (Read (Some a') k) h2 = Ok (None, Some ErrNotFound) ∧
       ∀ k', returned (Read (Some a) k') h2 = Ok (found_or_not (m !! k'))).
Proof.
  intros Ha Horder. rewrite (Clone_allocated h a m order Horder).
  set (a' := fresh (dom h)).
  assert (Hfresh : h !! a' = None) by apply not_elem_of_dom, is_fresh.
  assert (Hne : a' ≠ a) by (intros ->; congruence).
  set (h' := <[a' := mkCycleState (StateData_Clone <$> m)]> h).
  assert (Hold : h' !! a = Some (mkCycleState m))
    by (unfold h'; by rewrite lookup_insert_ne).
  assert (Hnew : h' !! a' = Some (mkCycleState (StateData_Clone <$> m)))
    by (unfold h'; by rewrite lookup_insert_eq).
  exists a', h'. split; [reflexivity|]. split.
  - eexists. split; [apply (Delete_allocated _ _ _ _ Hold)|]. split.
    + unfold returned. erewrite Read_allocated by apply lookup_insert_eq.
      by rewrite lookup_delete_eq.
    + intros k'. unfold returned.
      erewrite Read_allocated
        by (rewrite lookup_insert_ne by congruence; exact Hnew).
      by rewrite lookup_fmap.
  - eexists. split; [apply (Delete_allocated _ _ _ _ Hnew)|]. split.
    + unfold returned. erewrite Read_allocated by apply lookup_insert_eq.
      by rewrite lookup_delete_eq.
    + intros k'. unfold returned.
      by erewrite Read_allocated
        by (rewrite lookup_insert_ne by congruence; exact Hold).
Qed.

End CycleStateMore.

Lemma one_cycle_state_inputs :
  one_cycle_state !! 0 = Some (mkCycleState {[ "capacity" := 7%Z ]}) ∧
  range_order ({[ "capacity" := 7%Z ]} : gmap string Z) [("capacity", 7%Z)].
Proof.
  split; [reflexivity|]. unfold range_order. by rewrite map_to_list_singleton.
Qed.

Lemma Write_then_Read_witness :
  ∃ h1, Write (Some 0) "zone" 3%Z one_cycle_state = Ok (tt, h1) ∧
    returned (Read (Some 0) "zone") h1 = Ok (Some 3%Z, None) ∧
    returned (Read (Some 0) "capacity") h1 = Ok (Some 7%Z, None).
Proof.
  destruct one_cycle_state_inputs as [H1 _].
  destruct (Write_then_Read _ _ _ "zone" 3%Z H1) as (h1 & Hw & Hr & Hk & _).
  exists h1. split; [exact Hw|]. split; [exact Hr|].
  rewrite (Hk "capacity") by discriminate. reflexivity.
Defined.

Lemma Delete_then_Read_witness :
  ∃ h1, Delete (Some 0) "capacity" one_cycle_state = Ok (tt, h1) ∧
    returned (Read (Some 0) "capacity") h1 = Ok (None, Some ErrNotFound) ∧
    Delete (Some 0) "capacity" h1 = Ok (tt, h1).
Proof.
  destruct one_cycle_state_inputs as [H1 _].
  destruct (Delete_then_Read _ _ _ "capacity" H1)
    as (h1 & Hd & Hr & _ & _ & _ & Hagain).
  exists h1. split; [exact Hd|]. split; [exact Hr|exact Hagain].
Defined.


Lemma Clone_then_Delete_witness :
  ∃ a' h' h1,
    Clone (Some 0) [("capacity", 7%Z)] one_cycle_state = Ok (Some a', h') ∧
    Delete (Some 0) "capacity" h' = Ok (tt, h1) ∧
    returned (Read (Some 0) "capacity") h1 = Ok (None, Some ErrNotFound) ∧
    returned (Read (Some a') "capacity") h1 = Ok (Some 7%Z, None).
Proof.
  destruct one_cycle_state_inputs as [H1 H2].
  destruct (Clone_then_Delete _ _ _ _ "capacity" H1 H2)
    as (a' & h' & Hc & (h1 & Hd & Hr & Hother) & _).
  exists a', h', h1. split; [exact Hc|]. split; [exact Hd|].
  split; [exact Hr|]. apply Hother.
Defined.

(** ** Further properties of the driver *)

(** Either all members pass, or there is a first one that does not. *)
Lemma first_exception {A : Type} (P : A → Prop) (l : list A) :
  (∀ x, P x ∨ ¬ P x) →
  Forall P l ∨ ∃ i x, l !! i = Some x ∧ ¬ P x ∧ Forall P (take i l).
Proof.
  intros Hdec. induction l as [|a l IH]; [by left|].
  destruct (Hdec a) as [Ha|Ha].
  - destruct IH as [IH|(i & x & Hi & Hx & Hpre)].
    + left. by constructor.
    + right. exists (S i), x. split; [exact Hi|]. split; [exact Hx|].
      rewrite firstn_cons. by constructor.
  - right. exists 0, a. split; [reflexivity|]. split; [exact Ha|].
    constructor.
Qed.

Section DriverMore.
Context `{Externals}.
Variable ctx : context_Context.
Variable state : option nat.
Variable volume : StorageVolume.

Lemma succeeded_or_not (o : option Status * World) : succeeded o ∨ ¬ succeeded o.
Proof. unfold succeeded. destruct (IsSuccess o.1); [by left|by right]. Qed.

Lemma outcomes_length steps (w : World) :
  length (outcomes steps w) = length steps.
Proof.
  revert w. induction steps as [|st steps IH]; intros w; [reflexivity|].
  simpl. by rewrite IH.
Qed.

Lemma outcomes_lookup_plugin {P : Type} (g : P → World → option Status * World)
    (pls : list P) (w : World) i o :
  outcomes (g <$> pls) w !! i = Some o → ∃ pl, pls !! i = Some pl.
Proof.
  intros Hi. apply lookup_lt_Some in Hi.
  rewrite outcomes_length, length_fmap in Hi.
  by apply lookup_lt_is_Some_2.
Qed.

(** *** PreFilter: what the result can be *)

(** X16. [RunPreFilterPlugins] always returns, and never a status it has
    not accounted for: the result is nil exactly when every PreFilter plugin
    succeeds; a status it returns has code [Unschedulable] or [Error],
    never [Success], [Wait] or [Skip], and carries the name of a registered
    plugin as its plugin name. *)
Theorem RunPreFilterPlugins_result (f : Framework) σ :
  let pls := preFilterPlugins f in
  let outs :=
    outcomes ((fun pl => PreFilter pl ctx state volume) <$> pls) (world σ) in
  ∃ r σ', RunPreFilterPlugins ctx state volume f σ = Ok (r, σ') ∧
    (r = None ↔ Forall succeeded outs) ∧
    (∀ s, r = Some s →
       (code s = Unschedulable ∨ code s = Error) ∧
       ∃ pl, pl ∈ pls ∧ pluginName s = Name pl).
Proof.
  intros pls outs. unfold RunPreFilterPlugins. fold pls.
  destruct (first_exception succeeded outs succeeded_or_not)
    as [Hall|(i & [st w] & Hi & Hx & Hpre)].
  - rewrite RunPreFilterPlugins_range_all_succeed by exact Hall.
    eexists _, _. split; [reflexivity|]. split; [done|]. by intros s.
  - destruct (outcomes_lookup_plugin _ _ _ _ _ Hi) as [pl Hpl].
    apply not_true_is_false in Hx. cbn [fst] in Hx.
    destruct (RunPreFilterPlugins_range_first_failure
                ctx state volume pls σ i pl st w Hpl Hi Hpre Hx)
      as (s & cause & _ & _ & ->).
    eexists _, _. split; [reflexivity|]. split.
    + split; [done|]. intros Hall. exfalso.
      rewrite Forall_forall in Hall.
      assert (Hs : succeeded (st, w))
        by (apply Hall; by apply list_elem_of_lookup_2 with i).
      unfold succeeded in Hs. simpl in Hs. congruence.
    + intros s' [= <-]. case_bool_decide as Hu.
      * split; [by left|]. exists pl.
        split; [by apply list_elem_of_lookup_2 with i|reflexivity].
      * split; [by right|]. exists pl.
        split; [by apply list_elem_of_lookup_2 with i|reflexivity].
Qed.

(** *** Filter: what the map holds, and its merge *)

Section FilterMore.
Variable poolInfo : option PoolInfo.

Lemma RunFilterPlugins_range_entries (known : list FilterPlugin) pls m σ :
  (∀ pl, pl ∈ pls → pl ∈ known) →
  (∀ name st, m !! name = Some st →
     ∃ s pl, st = Some s ∧ pl ∈ known ∧ Name pl = name ∧
             pluginName s = name ∧
             (code s = Unschedulable ∨ code s = Error)) →
  ∃ statuses σ',
    RunFilterPlugins_range ctx state volume poolInfo m pls σ
      = Ok (statuses, σ') ∧
    ∀ name st, statuses !! name = Some st →
      ∃ s pl, st = Some s ∧ pl ∈ known ∧ Name pl = name ∧
              pluginName s = name ∧
              (code s = Unschedulable ∨ code s = Error).
Proof.
  revert m σ. induction pls as [|pl rest IH]; intros m σ Hsub Hm.
  - exists m, σ. split; [reflexivity|exact Hm].
  - assert (Hrest : ∀ pl', pl' ∈ rest → pl' ∈ known)
      by (intros pl' Hpl'; apply Hsub; by constructor).
    assert (Hpl : pl ∈ known) by (apply Hsub; constructor).
    set (r := Filter pl ctx state volume poolInfo (world σ)).
    destruct (status_cases r.1)
      as [Hs|[(s & Hst & Hu & Hs)|(s & cause & Hst & Hs & Hu & Hcause)]].
    + rewrite RunFilterPlugins_range_success by exact Hs. by apply IH.
    + rewrite (RunFilterPlugins_range_unschedulable
                 ctx state volume poolInfo m pl rest σ s) by assumption.
      apply IH; [exact Hrest|].
      intros name st Hlook.
      destruct (decide (Name pl = name)) as [<-|Hne].
      * rewrite lookup_insert_eq in Hlook. injection Hlook as <-.
        exists (named s (Name pl)), pl. repeat split; try done. by left.
      * rewrite lookup_insert_ne in Hlook by exact Hne. by apply Hm.
    + rewrite (RunFilterPlugins_range_other
                 ctx state volume poolInfo m pl rest σ cause) by assumption.
      eexists _, _. split; [reflexivity|].
      intros name st Hlook.
      apply lookup_singleton_Some in Hlook as [<- <-].
      eexists _, pl. repeat split; try done. by right.
Qed.


(** X19. The map that [RunFilterPlugins] returns can always be merged:
    in whatever order [Merge] visits it, [Merge] does not panic; it
    returns nil exactly when every filter plugin succeeded on the pool;
    and otherwise the merged status has code [Unschedulable] or [Error]
    and the name of a registered filter plugin as its plugin name. *)
Theorem RunFilterPlugins_then_Merge (f : Framework) σ :
  let outs :=
    outcomes ((fun pl => Filter pl ctx state volume poolInfo)
                <$> filterPlugins f) (world σ) in
  ∃ statuses σ',
    RunFilterPlugins ctx state volume f poolInfo σ = Ok (statuses, σ') ∧
    ∀ order, range_order statuses order →
      ∃ merged, Merge statuses order = Ok merged ∧
        (merged = None ↔ Forall succeeded outs) ∧
        (∀ final, merged = Some final →
           (code final = Unschedulable ∨ code final = Error) ∧
           ∃ pl, pl ∈ filterPlugins f ∧ pluginName final = Name pl).
Proof.
  intros outs.
  destruct (RunFilterPlugins_range_entries (filterPlugins f)
              (filterPlugins f) ∅ σ) as (statuses & σ' & Hrun & Hent);
    [done|intros name st Hlook; by rewrite lookup_empty in Hlook|].
  fold (RunFilterPlugins ctx state volume f poolInfo σ) in Hrun.
  exists statuses, σ'. split; [exact Hrun|].
  assert (Hempty : statuses = ∅ ↔ Forall succeeded outs).
  { destruct (RunFilterPlugins_range_empty_result
                ctx state volume poolInfo (filterPlugins f) ∅ σ)
      as (statuses' & σ'' & Hrun' & Hiff).
    unfold RunFilterPlugins in Hrun. rewrite Hrun in Hrun'.
    injection Hrun' as <- <-. rewrite Hiff. fold outs. tauto. }
  intros order Horder.
  destruct (decide (statuses = ∅)) as [Hnil|Hne].
  { exists None. split.
    - unfold Merge. rewrite Hnil, map_size_empty. reflexivity.
    - split; [|done]. split; [intros _; by apply Hempty|done]. }
  destruct (members_of_order order) as [[k Hk]|[ss Hss]].
  { exfalso. assert (Hp : statuses !! k = Some None).
    { apply elem_of_map_to_list. unfold range_order in Horder.
      by rewrite <- Horder. }
    destruct (Hent k None Hp) as (s & _ & Hs & _). discriminate Hs. }
  assert (Hmem : ∀ s, s ∈ ss →
            (code s = Unschedulable ∨ code s = Error) ∧
            ∃ pl, pl ∈ filterPlugins f ∧ pluginName s = Name pl).
  { intros s Hs.
    assert (Hin : Some s ∈ order.*2)
      by (rewrite Hss; by apply list_elem_of_fmap_2).
    apply list_elem_of_fmap in Hin as ([k st] & Hst & Hin).
    simpl in Hst. subst st.
    unfold range_order in Horder. rewrite Horder in Hin.
    apply elem_of_map_to_list in Hin.
    destruct (Hent k (Some s) Hin) as (s' & pl & [= <-] & Hpl & Hn & Hpn & Hc).
    split; [exact Hc|]. exists pl. split; [exact Hpl|]. congruence. }
  destruct (Merge_of_members statuses order ss Hne Horder Hss) as [Hnn Hm].
  exists (Some (foldl merged_with (mkStatus Success [] None "") ss)).
  split; [exact Hm|]. split.
  { split; [discriminate|]. intros Hall. by apply Hempty in Hall. }
  intros final [= <-].
  destruct (max_precedence_attained ss Hnn) as (t & Ht & Htmax).
  destruct (Hmem t Ht) as [Htc _].
  assert (Hpos : (max_precedence ss > precedence Success)%Z).
  { rewrite <- Htmax. destruct Htc as [-> | ->]; vm_compute; reflexivity. }
  split.
  - assert (Hprec : precedence (code (foldl merged_with
                       (mkStatus Success [] None "") ss)) = precedence (code t)).
    { rewrite merged_precedence, Htmax. simpl. lia. }
    apply precedence_determines_code in Hprec.
    + by rewrite Hprec.
    + rewrite Hprec. destruct Htc as [-> | ->]; vm_compute; discriminate.
  - rewrite merged_pluginName. cbn [code].
    rewrite bool_decide_eq_true_2 by exact Hpos.
    assert (Hhigh : t ∈ highest ss)
      by (unfold highest; by apply list_elem_of_filter).
    destruct (highest ss) as [|t' l] eqn:Hh; [by apply elem_of_nil in Hhigh|].
    simpl.
    assert (Ht' : t' ∈ ss).
    { assert (Hin : t' ∈ highest ss) by (rewrite Hh; constructor).
      unfold highest in Hin. by apply list_elem_of_filter in Hin as [_ Hin]. }
    apply (Hmem t' Ht').
Qed.

End FilterMore.

Section PreScoreMore.
Variable pools : list StoragePool.

(** *** PreScore *)

Lemma RunPreScorePlugins_range_success pl rest (w : World) :
  IsSuccess (PreScore pl ctx state volume pools w).1 = true →
  RunPreScorePlugins_range ctx state volume pools (pl :: rest) w =
    RunPreScorePlugins_range ctx state volume pools rest (PreScore pl ctx state volume pools w).2.
Proof.
  intros Hs. cbn [RunPreScorePlugins_range]. unfold runPreScorePlugin.
  stage_step. destruct (PreScore pl ctx state volume pools w) as [st w'].
  simpl in *. by rewrite Hs.
Qed.

Lemma RunPreScorePlugins_range_failure pl rest (w : World) cause :
  IsSuccess (PreScore pl ctx state volume pools w).1 = false →
  AsError (PreScore pl ctx state volume pools w).1 = Some cause →
  RunPreScorePlugins_range ctx state volume pools (pl :: rest) w =
    Ok (Some (escalated "running PreScore plugin " ": " (Name pl) cause ""),
        (PreScore pl ctx state volume pools w).2).
Proof.
  intros Hs Hcause. cbn [RunPreScorePlugins_range]. unfold runPreScorePlugin.
  stage_step. destruct (PreScore pl ctx state volume pools w) as [st w'].
  simpl in *. by rewrite Hs, Hcause.
Qed.

Lemma RunPreScorePlugins_range_all_succeed pls (w : World) :
  Forall succeeded (outcomes ((fun pl => PreScore pl ctx state volume pools) <$> pls) w) →
  RunPreScorePlugins_range ctx state volume pools pls w =
    Ok (None, world_after (outcomes ((fun pl => PreScore pl ctx state volume pools) <$> pls) w) w).
Proof.
  revert w. induction pls as [|pl rest IH]; intros w Hall; [reflexivity|].
  cbn [fmap list_fmap outcomes] in *.
  apply Forall_cons in Hall as [Hs Hrest].
  rewrite RunPreScorePlugins_range_success by exact Hs.
  rewrite IH by exact Hrest. by rewrite world_after_cons.
Qed.

Lemma RunPreScorePlugins_range_first_failure pls (w0 : World) i pl st w :
  pls !! i = Some pl →
  outcomes ((fun pl => PreScore pl ctx state volume pools) <$> pls) w0 !! i = Some (st, w) →
  Forall succeeded (take i (outcomes ((fun pl => PreScore pl ctx state volume pools) <$> pls) w0)) →
  IsSuccess st = false →
  ∃ cause, AsError st = Some cause ∧
    RunPreScorePlugins_range ctx state volume pools pls w0 =
      Ok (Some (escalated "running PreScore plugin " ": " (Name pl) cause ""), w).
Proof.
  revert w0 i. induction pls as [|p rest IH]; intros w0 i Hpl Hout Hpre Hst;
    [done|].
  destruct i as [|i]; cbn [fmap list_fmap outcomes] in *.
  - simpl in Hpl, Hout. injection Hpl as ->. injection Hout as Hout.
    destruct (not_success_not_nil st Hst) as (s & cause & -> & Hc & Hcause).
    exists cause. split; [done|].
    rewrite (RunPreScorePlugins_range_failure pl rest w0 cause);
      rewrite Hout; done.
  - simpl in Hpl, Hout. rewrite firstn_cons in Hpre.
    apply Forall_cons in Hpre as [Hs Hrest].
    rewrite RunPreScorePlugins_range_success by exact Hs.
    by apply (IH _ i).
Qed.

(** X20. [RunPreScorePlugins] calls the PreScore plugins in registration
    order. When every plugin succeeds (and when there is none) all have
    been called and the result is nil. Otherwise it stops at the first
    plugin whose status is not a success, whatever its code, leaving the
    world as that plugin left it, and returns an [Error] status that wraps
    the error of that status and names the plugin in its message. It
    always returns; its result is nil exactly when every plugin succeeds,
    and a status it returns has code [Error] and an empty plugin name. *)
Theorem RunPreScorePlugins_stops_at_first_failure (f : OtherPlugins)
    (w0 : World) :
  let pls := preScorePlugins f in
  let outs := outcomes ((fun pl => PreScore pl ctx state volume pools) <$> pls) w0 in
  (Forall succeeded outs →
     RunPreScorePlugins ctx state volume f pools w0 = Ok (None, world_after outs w0)) ∧
  (∀ i pl st w,
     pls !! i = Some pl → outs !! i = Some (st, w) →
     Forall succeeded (take i outs) → IsSuccess st = false →
     ∃ cause, AsError st = Some cause ∧
       RunPreScorePlugins ctx state volume f pools w0 =
         Ok (Some (escalated "running PreScore plugin " ": " (Name pl) cause ""),
             w)) ∧
  (∃ r w', RunPreScorePlugins ctx state volume f pools w0 = Ok (r, w') ∧
           (r = None ↔ Forall succeeded outs) ∧
           (∀ s, r = Some s → code s = Error ∧ pluginName s = "")).
Proof.
  intros pls outs. unfold RunPreScorePlugins. fold pls.
  split; [apply RunPreScorePlugins_range_all_succeed|].
  split; [apply RunPreScorePlugins_range_first_failure|].
  destruct (first_exception succeeded outs succeeded_or_not)
    as [Hall|(i & [st w] & Hi & Hx & Hpre)].
  - rewrite RunPreScorePlugins_range_all_succeed by exact Hall.
    eexists _, _. split; [reflexivity|]. split; [done|]. by intros s.
  - destruct (outcomes_lookup_plugin _ _ _ _ _ Hi) as [pl Hpl].
    apply not_true_is_false in Hx. cbn [fst] in Hx.
    destruct (RunPreScorePlugins_range_first_failure
                pls w0 i pl st w Hpl Hi Hpre Hx) as (cause & _ & ->).
    eexists _, _. split; [reflexivity|]. split.
    + split; [done|]. intros Hall. exfalso.
      rewrite Forall_forall in Hall.
      assert (Hs : succeeded (st, w))
        by (apply Hall; by apply list_elem_of_lookup_2 with i).
      unfold succeeded in Hs. simpl in Hs. congruence.
    + by intros s [= <-].
Qed.

End PreScoreMore.

(** *** Score: the shape of the result *)

(** X24. Whatever the scoring plugins would answer, [RunScorePlugins]
    returns a nil status and leaves the driver state as it was, no plugin
    having been called; the map it returns has an entry for the name of
    every configured scoring plugin and for nothing else, and every entry
    is a list of as many scores as there are pools, each with an empty
    pool name and score 0. *)
Theorem RunScorePlugins_shape (f : Framework) (pools : list StoragePool) σ :
  ∃ scores,
    RunScorePlugins ctx state volume f pools σ = Ok ((scores, None), σ) ∧
    (∀ name, is_Some (scores !! name) ↔ name ∈ Name <$> scorePlugins f) ∧
    (∀ name l, scores !! name = Some l →
       length l = length pools ∧
       Forall (fun ps => ps = mkPoolScore "" 0%Z) l).
Proof.
  destruct (RunScorePlugins_calls_no_plugin ctx state volume f pools σ)
    as (scores & Hrun & Hlook).
  exists scores. split; [exact Hrun|]. split.
  - intros name. rewrite Hlook. case_bool_decide as Hin.
    + split; [done|]. intros _. by eexists.
    + split; [|done]. by intros [l Hl].
  - intros name l. rewrite Hlook. case_bool_decide; [|discriminate].
    intros [= <-]. split; [apply length_replicate|].
    apply Forall_forall. intros ps Hps.
    by apply elem_of_replicate in Hps as [-> _].
Qed.

(** *** PostFilter *)

Section PostFilterMore.
Variable range_of :
  gmap string (option Status) → list (string * option Status).
Hypothesis range_of_visits_each_once : ∀ p, range_order p (range_of p).

Lemma answers_length {A : Type} (steps : list (World → A * World)) (w : World) :
  length (answers steps w) = length steps.
Proof.
  revert w. induction steps as [|st steps IH]; intros w; [reflexivity|].
  simpl. by rewrite IH.
Qed.

Lemma world_left_cons {A : Type} (o : A * World) outs (w : World) :
  world_left (o :: outs) w = world_left outs o.2.
Proof. unfold world_left. rewrite last_cons. by destruct (last outs). Qed.

Lemma unschedulable_not_nil (st : option Status) :
  IsUnschedulable st = true →
  ∃ s, st = Some s ∧ code s = Unschedulable ∧ IsSuccess st = false.
Proof.
  unfold IsUnschedulable. intros Hu. apply bool_decide_eq_true in Hu.
  destruct st as [s|]; [|discriminate Hu].
  exists s. repeat split; [exact Hu|].
  unfold IsSuccess. simpl in *. by rewrite Hu.
Qed.

Lemma RunPostFilterPlugins_range_success m pl rest (w : World) :
  IsSuccess (PostFilter pl ctx state volume w).1.2 = true →
  RunPostFilterPlugins_range ctx state volume range_of m (pl :: rest) w =
    Ok ((PostFilter pl ctx state volume w).1, (PostFilter pl ctx state volume w).2).
Proof.
  intros Hs. cbn [RunPostFilterPlugins_range]. unfold runPostFilterPlugin.
  stage_step. destruct (PostFilter pl ctx state volume w) as [[r st] w'].
  simpl in *. by rewrite Hs.
Qed.

Lemma RunPostFilterPlugins_range_other m pl rest (w : World) cause :
  IsSuccess (PostFilter pl ctx state volume w).1.2 = false →
  IsUnschedulable (PostFilter pl ctx state volume w).1.2 = false →
  AsError (PostFilter pl ctx state volume w).1.2 = Some cause →
  RunPostFilterPlugins_range ctx state volume range_of m (pl :: rest) w =
    Ok (("", Some (AsStatus cause)), (PostFilter pl ctx state volume w).2).
Proof.
  intros Hs Hu Hcause. cbn [RunPostFilterPlugins_range].
  unfold runPostFilterPlugin. stage_step.
  destruct (PostFilter pl ctx state volume w) as [[r st] w'].
  simpl in *. by rewrite Hs, Hu, Hcause.
Qed.

Lemma RunPostFilterPlugins_range_unschedulable m pl rest (w : World) :
  IsUnschedulable (PostFilter pl ctx state volume w).1.2 = true →
  RunPostFilterPlugins_range ctx state volume range_of m (pl :: rest) w =
    RunPostFilterPlugins_range ctx state volume range_of
      (<[Name pl := (PostFilter pl ctx state volume w).1.2]> m) rest
      (PostFilter pl ctx state volume w).2.
Proof.
  intros Hu. destruct (unschedulable_not_nil _ Hu) as (s & Hst & _ & Hs).
  cbn [RunPostFilterPlugins_range]. unfold runPostFilterPlugin. stage_step.
  destruct (PostFilter pl ctx state volume w) as [[r st] w'].
  simpl in *. by rewrite Hs, Hu.
Qed.

Lemma RunPostFilterPlugins_range_first_answer pls m (w0 : World) i pl r st w :
  pls !! i = Some pl →
  answers ((fun pl => PostFilter pl ctx state volume) <$> pls) w0 !! i
    = Some ((r, st), w) →
  Forall still_unschedulable
    (take i (answers ((fun pl => PostFilter pl ctx state volume) <$> pls) w0)) →
  IsUnschedulable st = false →
  (IsSuccess st = true →
     RunPostFilterPlugins_range ctx state volume range_of m pls w0
       = Ok ((r, st), w)) ∧
  (IsSuccess st = false →
     ∃ cause, AsError st = Some cause ∧
       RunPostFilterPlugins_range ctx state volume range_of m pls w0
         = Ok (("", Some (AsStatus cause)), w)).
Proof.
  revert m w0 i. induction pls as [|p rest IH];
    intros m w0 i Hpl Hout Hpre Hu; [done|].
  destruct i as [|i]; cbn [fmap list_fmap answers] in *.
  - simpl in Hpl, Hout. injection Hpl as ->. injection Hout as Hout.
    split.
    + intros Hs. rewrite RunPostFilterPlugins_range_success; rewrite Hout; done.
    + intros Hs.
      destruct (not_success_not_nil st Hs) as (s & cause & -> & Hc & Hcause).
      exists cause. split; [done|].
      rewrite (RunPostFilterPlugins_range_other m pl rest w0 cause);
        rewrite Hout; done.
  - simpl in Hpl, Hout. rewrite firstn_cons in Hpre.
    apply Forall_cons in Hpre as [Hhead Hrest].
    rewrite RunPostFilterPlugins_range_unschedulable by exact Hhead.
    by apply (IH _ _ i).
Qed.

Lemma Merge_of_unschedulable_members (m : gmap string (option Status))
    (known : list Status) :
  m ≠ ∅ →
  (∀ name st, m !! name = Some st →
     ∃ s, st = Some s ∧ code s = Unschedulable ∧ s ∈ known) →
  ∃ final, Merge m (range_of m) = Ok (Some final) ∧
    code final = Unschedulable ∧
    ∀ reason, reason ∈ reasons final →
      ∃ s, s ∈ known ∧ reason ∈ reasons s.
Proof.
  intros Hne Hm. pose proof (range_of_visits_each_once m) as Horder.
  destruct (members_of_order (range_of m)) as [[k Hk]|[ss Hss]].
  { exfalso. assert (Hp : m !! k = Some None).
    { apply elem_of_map_to_list. unfold range_order in Horder.
      by rewrite <- Horder. }
    destruct (Hm k None Hp) as (s & Hs & _). discriminate Hs. }
  assert (Hmem : ∀ s, s ∈ ss → code s = Unschedulable ∧ s ∈ known).
  { intros s Hs.
    assert (Hin : Some s ∈ (range_of m).*2)
      by (rewrite Hss; by apply list_elem_of_fmap_2).
    apply list_elem_of_fmap in Hin as ([k st] & Hst & Hin).
    simpl in Hst. subst st.
    unfold range_order in Horder. rewrite Horder in Hin.
    apply elem_of_map_to_list in Hin.
    destruct (Hm k (Some s) Hin) as (s' & [= <-] & Hc & Hk). done. }
  destruct (Merge_members_summary m (range_of m) ss Hne Horder Hss)
    as (final & Hmerge & Hprec & (t & Ht & Htmax) & Hreasons & _).
  exists final. split; [exact Hmerge|]. split.
  - destruct (Hmem t Ht) as [Htc _]. rewrite <- Htc.
    apply precedence_determines_code; [congruence|].
    rewrite Hprec, <- Htmax, Htc. vm_compute. discriminate.
  - intros reason Hr. rewrite Hreasons in Hr.
    apply list_elem_of_join in Hr as (l & Hr & Hl).
    apply list_elem_of_fmap in Hl as (s & -> & Hs).
    exists s. split; [by apply Hmem|exact Hr].
Qed.

Lemma RunPostFilterPlugins_range_all_unschedulable pls m (w0 : World)
    (known : list Status) :
  Forall still_unschedulable
    (answers ((fun pl => PostFilter pl ctx state volume) <$> pls) w0) →
  (∀ o s, o ∈ answers ((fun pl => PostFilter pl ctx state volume) <$> pls) w0 →
          o.1.2 = Some s → s ∈ known) →
  (∀ name st, m !! name = Some st →
     ∃ s, st = Some s ∧ code s = Unschedulable ∧ s ∈ known) →
  m ≠ ∅ ∨ pls ≠ [] →
  ∃ final,
    RunPostFilterPlugins_range ctx state volume range_of m pls w0 =
      Ok (("", Some final),
          world_left (answers ((fun pl => PostFilter pl ctx state volume)
                                 <$> pls) w0) w0) ∧
    code final = Unschedulable ∧
    ∀ reason, reason ∈ reasons final →
      ∃ s, s ∈ known ∧ reason ∈ reasons s.
Proof.
  revert m w0. induction pls as [|pl rest IH]; intros m w0 Hall Hknown Hm Hne.
  - destruct Hne as [Hne|Hne]; [|done].
    destruct (Merge_of_unschedulable_members m known Hne Hm)
      as (final & Hmerge & Hc & Hr).
    exists final. split; [|done].
    cbn [RunPostFilterPlugins_range]. stage_step. by rewrite Hmerge.
  - cbn [fmap list_fmap answers] in *.
    apply Forall_cons in Hall as [Hhead Hrest].
    rewrite RunPostFilterPlugins_range_unschedulable by exact Hhead.
    rewrite world_left_cons.
    destruct (unschedulable_not_nil _ Hhead) as (s & Hst & Hc & _).
    apply IH.
    + exact Hrest.
    + intros o s' Ho. apply Hknown. by constructor.
    + intros name st Hlook.
      destruct (decide (Name pl = name)) as [<-|Hn].
      * rewrite lookup_insert_eq in Hlook. injection Hlook as <-.
        exists s. split; [exact Hst|]. split; [exact Hc|].
        apply (Hknown (PostFilter pl ctx state volume w0)); [constructor|done].
      * rewrite lookup_insert_ne in Hlook by exact Hn.
        exact (Hm name st Hlook).
    + left. apply insert_non_empty.
Qed.

(** X23. [RunPostFilterPlugins] calls the PostFilter plugins in
    registration order for as long as they answer [Unschedulable]. With no
    plugin at all it returns the empty pool name and a nil status, which is
    a success. The first plugin with another answer ends the run, the world
    left as that plugin left it: a success is returned as it is, with the
    pool name the plugin gave; any other status is replaced by an [Error]
    status made of its error alone, with the empty pool name. When every
    plugin of a non-empty list answers [Unschedulable], all are called and
    the result is the empty pool name and the merge of their statuses: a
    status with code [Unschedulable], each of whose reasons is a reason of
    one of the answers. The run never panics. *)
Theorem RunPostFilterPlugins_cases (f : OtherPlugins) (w0 : World) :
  let pls := postFilterPlugins f in
  let outs := answers ((fun pl => PostFilter pl ctx state volume) <$> pls) w0 in
  (pls = [] →
     RunPostFilterPlugins ctx state volume range_of f w0 = Ok (("", None), w0)) ∧
  (∀ i pl r st w,
     pls !! i = Some pl → outs !! i = Some ((r, st), w) →
     Forall still_unschedulable (take i outs) → IsUnschedulable st = false →
     (IsSuccess st = true →
        RunPostFilterPlugins ctx state volume range_of f w0 = Ok ((r, st), w)) ∧
     (IsSuccess st = false →
        ∃ cause, AsError st = Some cause ∧
          RunPostFilterPlugins ctx state volume range_of f w0
            = Ok (("", Some (AsStatus cause)), w))) ∧
  (pls ≠ [] → Forall still_unschedulable outs →
     ∃ final,
       RunPostFilterPlugins ctx state volume range_of f w0
         = Ok (("", Some final), world_left outs w0) ∧
       code final = Unschedulable ∧
       ∀ reason, reason ∈ reasons final →
         ∃ o s, o ∈ outs ∧ o.1.2 = Some s ∧ reason ∈ reasons s) ∧
  (∃ r w', RunPostFilterPlugins ctx state volume range_of f w0 = Ok (r, w')).
Proof.
  intros pls outs. unfold RunPostFilterPlugins. fold pls.
  assert (Hall : pls ≠ [] → Forall still_unschedulable outs →
     ∃ final,
       RunPostFilterPlugins_range ctx state volume range_of ∅ pls w0
         = Ok (("", Some final), world_left outs w0) ∧
       code final = Unschedulable ∧
       ∀ reason, reason ∈ reasons final →
         ∃ o s, o ∈ outs ∧ o.1.2 = Some s ∧ reason ∈ reasons s).
  { intros Hne Hall.
    destruct (RunPostFilterPlugins_range_all_unschedulable pls ∅ w0
                (omap (fun o : (string * option Status) * World => o.1.2) outs))
      as (final & Hrun & Hc & Hr).
    - exact Hall.
    - intros o s Ho Hs. apply list_elem_of_omap. by exists o.
    - intros name st Hlook. by rewrite lookup_empty in Hlook.
    - by right.
    - exists final. split; [exact Hrun|]. split; [exact Hc|].
      intros reason Hreason. destruct (Hr reason Hreason) as (s & Hs & Hin).
      apply list_elem_of_omap in Hs as (o & Ho & Hos). by exists o, s. }
  split; [|split; [|split]].
  - intros ->. cbn [RunPostFilterPlugins_range]. stage_step.
    unfold Merge. by rewrite map_size_empty.
  - intros i pl r st w. apply RunPostFilterPlugins_range_first_answer.
  - exact Hall.
  - destruct (decide (pls = [])) as [Hnil|Hne].
    { rewrite Hnil. cbn [RunPostFilterPlugins_range]. stage_step.
      unfold Merge. rewrite map_size_empty. by eexists _, _. }
    destruct (first_exception still_unschedulable outs)
      as [Hu|(i & [[r st] w] & Hi & Hx & Hpre)].
    { intros o. unfold still_unschedulable.
      destruct (IsUnschedulable o.1.2); [by left|by right]. }
    + destruct (Hall Hne Hu) as (final & -> & _). by eexists _, _.
    + assert (Hpl : ∃ pl, pls !! i = Some pl).
      { apply lookup_lt_is_Some_2. apply lookup_lt_Some in Hi.
        unfold outs in Hi. by rewrite answers_length, length_fmap in Hi. }
      destruct Hpl as [pl Hpl].
      apply not_true_is_false in Hx. cbn [fst snd] in Hx.
      destruct (RunPostFilterPlugins_range_first_answer
                  pls ∅ w0 i pl r st w Hpl Hi Hpre Hx) as [Hok Hfail].
      destruct (IsSuccess st) eqn:Hs.
      * rewrite (Hok eq_refl). by eexists _, _.
      * destruct (Hfail eq_refl) as (cause & _ & ->). by eexists _, _.
Qed.

End PostFilterMore.

Section PlacementMore.
Variable pool cohort : ObjectReference.

(** *** Reserve, in general *)

Lemma RunReservePluginsReserve_range_all_succeed pls σ :
  Forall succeeded
    (outcomes ((fun pl => Reserve pl ctx state volume pool cohort) <$> pls)
              (world σ)) →
  RunReservePluginsReserve_range ctx state volume pool cohort pls σ =
    Ok (None,
        mkDriverState
          (world_after
             (outcomes ((fun pl => Reserve pl ctx state volume pool cohort)
                          <$> pls) (world σ)) (world σ))
          (calls σ ++ called ReserveMethod pls)).
Proof.
  revert σ. induction pls as [|pl rest IH]; intros σ Hall.
  - destruct σ. simpl. unfold mret, ST_ret, called. simpl.
    by rewrite app_nil_r.
  - cbn [fmap list_fmap outcomes] in Hall.
    apply Forall_cons in Hall as [Hs Hrest].
    rewrite RunReservePluginsReserve_range_success by exact Hs.
    rewrite IH by exact Hrest. cbn [world calls fmap list_fmap outcomes].
    by rewrite world_after_cons, called_cons.
Qed.

Lemma RunReservePluginsReserve_range_first_failure pls σ i pl st w :
  pls !! i = Some pl →
  outcomes ((fun pl => Reserve pl ctx state volume pool cohort) <$> pls)
           (world σ) !! i = Some (st, w) →
  Forall succeeded
    (take i (outcomes ((fun pl => Reserve pl ctx state volume pool cohort)
                         <$> pls) (world σ))) →
  IsSuccess st = false →
  ∃ cause, AsError st = Some cause ∧
    RunReservePluginsReserve_range ctx state volume pool cohort pls σ =
      Ok (Some (escalated "running Reserve plugin " ": " (Name pl) cause ""),
          mkDriverState w (calls σ ++ called ReserveMethod (take (S i) pls))).
Proof.
  revert σ i. induction pls as [|p rest IH]; intros σ i Hpl Hout Hpre Hst;
    [done|].
  destruct i as [|i]; cbn [fmap list_fmap outcomes] in *.
  - simpl in Hpl, Hout. injection Hpl as ->. injection Hout as Hout.
    destruct (not_success_not_nil st Hst) as (s & cause & -> & Hc & Hcause).
    exists cause. split; [done|].
    rewrite (RunReservePluginsReserve_range_failure
               ctx state volume pool cohort pl rest σ cause);
      rewrite Hout; done.
  - simpl in Hpl, Hout. rewrite firstn_cons in Hpre.
    apply Forall_cons in Hpre as [Hs Hrest].
    rewrite RunReservePluginsReserve_range_success by exact Hs.
    destruct (IH (mkDriverState
                    (Reserve p ctx state volume pool cohort (world σ)).2
                    (calls σ ++ [mkCall ReserveMethod (Name p)]))
                i Hpl Hout Hrest Hst) as (cause & Hcause & ->).
    exists cause. split; [done|].
    cbn [calls]. by rewrite firstn_cons, called_cons.
Qed.

(** X15. [RunReservePluginsReserve] calls [Reserve] on the reserve plugins
    in registration order. When every plugin succeeds all have been called
    and the result is nil. Otherwise it stops at the first plugin whose
    status is not a success, whatever its code, calls no plugin after it,
    and returns an [Error] status that wraps the error of that status and
    names the plugin in its message; the plugin name of the status
    returned is empty. *)
Theorem RunReservePluginsReserve_stops_at_first_failure (f : Framework) σ :
  let pls := reservePlugins f in
  let outs :=
    outcomes ((fun pl => Reserve pl ctx state volume pool cohort) <$> pls)
             (world σ) in
  (Forall succeeded outs →
     RunReservePluginsReserve ctx state volume pool cohort f σ =
       Ok (None, mkDriverState (world_after outs (world σ))
                               (calls σ ++ called ReserveMethod pls))) ∧
  (∀ i pl st w,
     pls !! i = Some pl → outs !! i = Some (st, w) →
     Forall succeeded (take i outs) → IsSuccess st = false →
     ∃ cause, AsError st = Some cause ∧
       RunReservePluginsReserve ctx state volume pool cohort f σ =
         Ok (Some (escalated "running Reserve plugin " ": " (Name pl) cause ""),
             mkDriverState w
               (calls σ ++ called ReserveMethod (take (S i) pls)))) ∧
  (∃ r σ', RunReservePluginsReserve ctx state volume pool cohort f σ
             = Ok (r, σ') ∧
           (r = None ↔ Forall succeeded outs) ∧
           (∀ s, r = Some s → code s = Error ∧ pluginName s = "")).
Proof.
  intros pls outs. unfold RunReservePluginsReserve. fold pls.
  split; [apply RunReservePluginsReserve_range_all_succeed|].
  split; [apply RunReservePluginsReserve_range_first_failure|].
  destruct (first_exception succeeded outs succeeded_or_not)
    as [Hall|(i & [st w] & Hi & Hx & Hpre)].
  - rewrite RunReservePluginsReserve_range_all_succeed by exact Hall.
    eexists _, _. split; [reflexivity|]. split; [done|]. by intros s.
  - destruct (outcomes_lookup_plugin _ _ _ _ _ Hi) as [pl Hpl].
    apply not_true_is_false in Hx. cbn [fst] in Hx.
    destruct (RunReservePluginsReserve_range_first_failure
                pls σ i pl st w Hpl Hi Hpre Hx) as (cause & _ & ->).
    eexists _, _. split; [reflexivity|]. split.
    + split; [done|]. intros Hall. exfalso.
      rewrite Forall_forall in Hall.
      assert (Hs : succeeded (st, w))
        by (apply Hall; by apply list_elem_of_lookup_2 with i).
      unfold succeeded in Hs. simpl in Hs. congruence.
    + by intros s [= <-].
Qed.

(** *** Bind: what the result can be *)

Lemma skipped_or_not (o : option Status * World) : skipped o ∨ ¬ skipped o.
Proof.
  rewrite <- (skipped_condition o).
  destruct ((match o.1 with Some _ => true | None => false end)
            && bool_decide (Status_Code o.1 = Skip)); [by left|by right].
Qed.

(** X17. [RunBindPlugins] always returns, and the code of its result is
    [Skip], [Success] or [Error], never [Unschedulable] or [Wait]. It is
    [Skip] exactly when no bind plugin took the volume (there is none, or
    all of them answered [Skip]), and a success exactly when the first
    plugin that did not answer [Skip] succeeded. *)
Theorem RunBindPlugins_result (f : Framework) σ :
  let bps := bindPlugins f in
  let outs :=
    outcomes ((fun bp => Bind bp ctx state volume pool cohort) <$> bps)
             (world σ) in
  ∃ r σ', RunBindPlugins ctx state volume pool cohort f σ = Ok (r, σ') ∧
    (Status_Code r = Skip ∨ Status_Code r = Success ∨ Status_Code r = Error) ∧
    (Status_Code r = Skip ↔ Forall skipped outs) ∧
    (IsSuccess r = true ↔
       ∃ i o, outs !! i = Some o ∧ Forall skipped (take i outs) ∧
              succeeded o).
Proof.
  intros bps outs.
  destruct (decide (bindPlugins f = [])) as [Hnil|Hne].
  { unfold RunBindPlugins. subst outs bps. rewrite Hnil.
    eexists _, _. split; [reflexivity|]. split; [by left|].
    split; [done|]. split; [discriminate|]. by intros (i & o & Hi & _). }
  rewrite RunBindPlugins_nonempty by exact Hne. fold bps.
  destruct (first_exception skipped outs skipped_or_not)
    as [Hall|(i & [st w] & Hi & Hx & Hpre)].
  - rewrite RunBindPlugins_range_all_skip by exact Hall. fold outs.
    eexists _, _. split; [reflexivity|].
    destruct (last outs) as [[st w]|] eqn:Hlast.
    + assert (Hk : skipped (st, w)).
      { rewrite Forall_forall in Hall. apply Hall.
        by apply last_Some_elem_of. }
      pose proof (skipped_not_success _ Hk) as Hns.
      destruct Hk as (s & Hs & Hc). simpl in Hs, Hns. subst st. simpl.
      split; [by left|]. split; [done|]. split; [congruence|].
      intros (j & o & Hj & _ & Ho). exfalso.
      rewrite Forall_forall in Hall.
      pose proof (skipped_not_success o
                    (Hall o (list_elem_of_lookup_2 _ _ _ Hj))) as Hno.
      unfold succeeded in Ho. congruence.
    + apply last_None in Hlast. unfold outs in Hlast.
      fold bps in Hne. destruct bps; [done|discriminate].
  - destruct (outcomes_lookup_plugin _ _ _ _ _ Hi) as [bp Hbp].
    destruct (RunBindPlugins_range_first_answer
                ctx state volume pool cohort bps None σ i bp st w
                Hbp Hi Hpre Hx) as [Hok Hfail].
    assert (Hnot : ¬ Forall skipped outs).
    { intros Hall. rewrite Forall_forall in Hall. apply Hx, Hall.
      by apply list_elem_of_lookup_2 with i. }
    assert (Huniq : ∀ j o, outs !! j = Some o → Forall skipped (take j outs) →
                           ¬ skipped o → j = i).
    { intros j o Hj Hprej Hnj.
      destruct (Nat.lt_trichotomy j i) as [Hlt|[Heq|Hgt]]; [|done|].
      - exfalso. apply Hnj. rewrite Forall_forall in Hpre. apply Hpre.
        apply list_elem_of_lookup_2 with j. by rewrite lookup_take_lt.
      - exfalso. apply Hx. rewrite Forall_forall in Hprej. apply Hprej.
        apply list_elem_of_lookup_2 with i. by rewrite lookup_take_lt. }
    destruct (IsSuccess st) eqn:Hs.
    + rewrite (Hok eq_refl). eexists _, _. split; [reflexivity|].
      unfold IsSuccess in Hs. apply bool_decide_eq_true in Hs.
      split; [by right; left|]. split; [|split].
      * split; [|done]. intros Hc. rewrite Hs in Hc. discriminate.
      * intros _. exists i, (st, w). repeat split; try done.
        unfold succeeded, IsSuccess. simpl. by apply bool_decide_eq_true.
      * intros _. unfold IsSuccess. by apply bool_decide_eq_true.
    + destruct (Hfail eq_refl) as (cause & _ & ->).
      eexists _, _. split; [reflexivity|].
      split; [by right; right|]. split; [|split].
      * split; [discriminate|done].
      * discriminate.
      * intros (j & o & Hj & Hprej & Ho). exfalso.
        assert (Hnj : ¬ skipped o).
        { intros Hk. apply skipped_not_success in Hk.
          unfold succeeded in Ho. congruence. }
        pose proof (Huniq j o Hj Hprej Hnj) as ->.
        rewrite Hi in Hj. injection Hj as <-.
        unfold succeeded in Ho. simpl in Ho. congruence.
Qed.

(** *** PreBind *)

Lemma RunPreBindPlugins_range_success pl rest (w : World) :
  IsSuccess (PreBind pl ctx state volume pool cohort w).1 = true →
  RunPreBindPlugins_range ctx state volume pool cohort (pl :: rest) w =
    RunPreBindPlugins_range ctx state volume pool cohort rest (PreBind pl ctx state volume pool cohort w).2.
Proof.
  intros Hs. cbn [RunPreBindPlugins_range]. unfold runPreBindPlugin.
  stage_step. destruct (PreBind pl ctx state volume pool cohort w) as [st w'].
  simpl in *. by rewrite Hs.
Qed.

Lemma RunPreBindPlugins_range_failure pl rest (w : World) cause :
  IsSuccess (PreBind pl ctx state volume pool cohort w).1 = false →
  AsError (PreBind pl ctx state volume pool cohort w).1 = Some cause →
  RunPreBindPlugins_range ctx state volume pool cohort (pl :: rest) w =
    Ok (Some (escalated "running PreBind plugin " ": " (Name pl) cause ""),
        (PreBind pl ctx state volume pool cohort w).2).
Proof.
  intros Hs Hcause. cbn [RunPreBindPlugins_range]. unfold runPreBindPlugin.
  stage_step. destruct (PreBind pl ctx state volume pool cohort w) as [st w'].
  simpl in *. by rewrite Hs, Hcause.
Qed.

Lemma RunPreBindPlugins_range_all_succeed pls (w : World) :
  Forall succeeded (outcomes ((fun pl => PreBind pl ctx state volume pool cohort) <$> pls) w) →
  RunPreBindPlugins_range ctx state volume pool cohort pls w =
    Ok (None, world_after (outcomes ((fun pl => PreBind pl ctx state volume pool cohort) <$> pls) w) w).
Proof.
  revert w. induction pls as [|pl rest IH]; intros w Hall; [reflexivity|].
  cbn [fmap list_fmap outcomes] in *.
  apply Forall_cons in Hall as [Hs Hrest].
  rewrite RunPreBindPlugins_range_success by exact Hs.
  rewrite IH by exact Hrest. by rewrite world_after_cons.
Qed.

Lemma RunPreBindPlugins_range_first_failure pls (w0 : World) i pl st w :
  pls !! i = Some pl →
  outcomes ((fun pl => PreBind pl ctx state volume pool cohort) <$> pls) w0 !! i = Some (st, w) →
  Forall succeeded (take i (outcomes ((fun pl => PreBind pl ctx state volume pool cohort) <$> pls) w0)) →
  IsSuccess st = false →
  ∃ cause, AsError st = Some cause ∧
    RunPreBindPlugins_range ctx state volume pool cohort pls w0 =
      Ok (Some (escalated "running PreBind plugin " ": " (Name pl) cause ""), w).
Proof.
  revert w0 i. induction pls as [|p rest IH]; intros w0 i Hpl Hout Hpre Hst;
    [done|].
  destruct i as [|i]; cbn [fmap list_fmap outcomes] in *.
  - simpl in Hpl, Hout. injection Hpl as ->. injection Hout as Hout.
    destruct (not_success_not_nil st Hst) as (s & cause & -> & Hc & Hcause).
    exists cause. split; [done|].
    rewrite (RunPreBindPlugins_range_failure pl rest w0 cause);
      rewrite Hout; done.
  - simpl in Hpl, Hout. rewrite firstn_cons in Hpre.
    apply Forall_cons in Hpre as [Hs Hrest].
    rewrite RunPreBindPlugins_range_success by exact Hs.
    by apply (IH _ i).
Qed.

(** X21. [RunPreBindPlugins] calls the PreBind plugins in registration
    order. When every plugin succeeds (and when there is none) all have
    been called and the result is nil. Otherwise it stops at the first
    plugin whose status is not a success, whatever its code, leaving the
    world as that plugin left it, and returns an [Error] status that wraps
    the error of that status and names the plugin in its message. It
    always returns; its result is nil exactly when every plugin succeeds,
    and a status it returns has code [Error] and an empty plugin name. *)
Theorem RunPreBindPlugins_stops_at_first_failure (f : OtherPlugins)
    (w0 : World) :
  let pls := preBindPlugins f in
  let outs := outcomes ((fun pl => PreBind pl ctx state volume pool cohort) <$> pls) w0 in
  (Forall succeeded outs →
     RunPreBindPlugins ctx state volume pool cohort f w0 = Ok (None, world_after outs w0)) ∧
  (∀ i pl st w,
     pls !! i = Some pl → outs !! i = Some (st, w) →
     Forall succeeded (take i outs) → IsSuccess st = false →
     ∃ cause, AsError st = Some cause ∧
       RunPreBindPlugins ctx state volume pool cohort f w0 =
         Ok (Some (escalated "running PreBind plugin " ": " (Name pl) cause ""),
             w)) ∧
  (∃ r w', RunPreBindPlugins ctx state volume pool cohort f w0 = Ok (r, w') ∧
           (r = None ↔ Forall succeeded outs) ∧
           (∀ s, r = Some s → code s = Error ∧ pluginName s = "")).
Proof.
  intros pls outs. unfold RunPreBindPlugins. fold pls.
  split; [apply RunPreBindPlugins_range_all_succeed|].
  split; [apply RunPreBindPlugins_range_first_failure|].
  destruct (first_exception succeeded outs succeeded_or_not)
    as [Hall|(i & [st w] & Hi & Hx & Hpre)].
  - rewrite RunPreBindPlugins_range_all_succeed by exact Hall.
    eexists _, _. split; [reflexivity|]. split; [done|]. by intros s.
  - destruct (outcomes_lookup_plugin _ _ _ _ _ Hi) as [pl Hpl].
    apply not_true_is_false in Hx. cbn [fst] in Hx.
    destruct (RunPreBindPlugins_range_first_failure
                pls w0 i pl st w Hpl Hi Hpre Hx) as (cause & _ & ->).
    eexists _, _. split; [reflexivity|]. split.
    + split; [done|]. intros Hall. exfalso.
      rewrite Forall_forall in Hall.
      assert (Hs : succeeded (st, w))
        by (apply Hall; by apply list_elem_of_lookup_2 with i).
      unfold succeeded in Hs. simpl in Hs. congruence.
    + by intros s [= <-].
Qed.

(** *** PostBind *)

(** X22. [RunPostBindPlugins] calls [PostBind] on every PostBind plugin,
    once each and in registration order, whatever the plugins do, and
    returns; running it over a list is running it over a first part of the
    list and then over the rest. *)
Theorem RunPostBindPlugins_calls_every_plugin (f : OtherPlugins) (w0 : World) :
  RunPostBindPlugins ctx state volume pool cohort f w0 =
    Ok (tt, post_bound ctx state volume pool cohort (postBindPlugins f) w0) ∧
  ∀ pls1 pls2,
    RunPostBindPlugins_range ctx state volume pool cohort (pls1 ++ pls2) w0 =
      (RunPostBindPlugins_range ctx state volume pool cohort pls1;;
       RunPostBindPlugins_range ctx state volume pool cohort pls2) w0.
Proof.
  assert (Hrun : ∀ pls w,
    RunPostBindPlugins_range ctx state volume pool cohort pls w =
      Ok (tt, post_bound ctx state volume pool cohort pls w)).
  { induction pls as [|pl rest IH]; intros w; [reflexivity|].
    cbn [RunPostBindPlugins_range]. unfold runPostBindPlugin. stage_step.
    by rewrite IH. }
  split; [apply Hrun|].
  intros pls1 pls2. stage_step. rewrite !Hrun.
  unfold post_bound. by rewrite foldl_app.
Qed.

End PlacementMore.

End DriverMore.

(** ** The other extension points on the example plugins *)

Section MoreDriverExamples.
#[local] Existing Instance journal_Externals.

Lemma RunPostFilterPlugins_cases_witness :
  (∀ p : gmap string (option Status), range_order p (map_to_list p)) ∧
  RunPostFilterPlugins tt None tt map_to_list postfilter_ABC []
    = Ok (("pool-2", None), ["A"; "B"]) ∧
  ∃ final,
    RunPostFilterPlugins tt None tt map_to_list postfilter_AB []
      = Ok (("", Some final), ["A"; "B"]) ∧
    code final = Unschedulable.
Proof.
  assert (Hrange : ∀ p : gmap string (option Status),
            range_order p (map_to_list p))
    by (intros p; unfold range_order; reflexivity).
  split; [exact Hrange|]. split.
  - pose proof (RunPostFilterPlugins_cases tt None tt map_to_list Hrange
                  postfilter_ABC []) as Hspec.
    cbv zeta in Hspec. destruct Hspec as (_ & Hspec & _).
    destruct (Hspec 1 (postfilter "B" "pool-2" None) "pool-2" None ["A"; "B"]
                eq_refl eq_refl) as [Hok _].
    + apply Forall_cons_2; [reflexivity|apply Forall_nil_2].
    + reflexivity.
    + exact (Hok eq_refl).
  - pose proof (RunPostFilterPlugins_cases tt None tt map_to_list Hrange
                  postfilter_AB []) as Hspec.
    cbv zeta in Hspec. destruct Hspec as (_ & _ & Hspec & _).
    destruct Hspec as (final & Hrun & Hc & _).
    + discriminate.
    + apply Forall_cons_2; [reflexivity|].
      apply Forall_cons_2; [reflexivity|apply Forall_nil_2].
    + exists final. split; [exact Hrun|exact Hc].
Defined.

Lemma RunPreScorePlugins_stops_at_first_failure_witness :
  ∃ cause,
    RunPreScorePlugins tt None tt stages_ABC ["pool-1"] [] =
      Ok (Some (escalated "running PreScore plugin " ": " "B" cause ""),
          ["A"; "B"]) ∧
    error_Error cause = "wrong zone".
Proof.
  pose proof (RunPreScorePlugins_stops_at_first_failure
                tt None tt ["pool-1"] stages_ABC []) as Hspec.
  cbv zeta in Hspec. destruct Hspec as (_ & Hspec & _).
  destruct (Hspec 1 (prescorer "B" (Some wrong_zone)) (Some wrong_zone)
              ["A"; "B"] eq_refl eq_refl) as (cause & Hcause & Hrun).
  - apply Forall_cons_2; [reflexivity|apply Forall_nil_2].
  - reflexivity.
  - exists cause. split; [exact Hrun|].
    vm_compute in Hcause. by injection Hcause as <-.
Defined.

Lemma RunPreBindPlugins_stops_at_first_failure_witness :
  ∃ cause,
    RunPreBindPlugins tt None tt "pool-1" "cohort-1" stages_ABC [] =
      Ok (Some (escalated "running PreBind plugin " ": " "B" cause ""),
          ["A"; "B"]) ∧
    error_Error cause = "disk gone".
Proof.
  pose proof (RunPreBindPlugins_stops_at_first_failure
                tt None tt "pool-1" "cohort-1" stages_ABC []) as Hspec.
  cbv zeta in Hspec. destruct Hspec as (_ & Hspec & _).
  destruct (Hspec 1 (prebinder "B" (Some disk_gone)) (Some disk_gone)
              ["A"; "B"] eq_refl eq_refl) as (cause & Hcause & Hrun).
  - apply Forall_cons_2; [reflexivity|apply Forall_nil_2].
  - reflexivity.
  - exists cause. split; [exact Hrun|].
    vm_compute in Hcause. by injection Hcause as <-.
Defined.

Lemma RunPostBindPlugins_calls_every_plugin_witness :
  RunPostBindPlugins tt None tt "pool-1" "cohort-1" stages_ABC []
    = Ok (tt, ["A"; "B"; "C"]).
Proof.
  pose proof (RunPostBindPlugins_calls_every_plugin
                tt None tt "pool-1" "cohort-1" stages_ABC []) as [Hrun _].
  exact Hrun.
Defined.

Lemma RunReservePluginsReserve_stops_at_first_failure_witness :
  ∃ cause,
    RunReservePluginsReserve tt None tt "pool-1" "cohort-1" reserve_ABC start =
      Ok (Some (escalated "running Reserve plugin " ": " "B" cause ""),
          mkDriverState ["A"; "B"]
            [mkCall ReserveMethod "A"; mkCall ReserveMethod "B"]).
Proof.
  pose proof (RunReservePluginsReserve_stops_at_first_failure
                tt None tt "pool-1" "cohort-1" reserve_ABC start) as Hspec.
  cbv zeta in Hspec. destruct Hspec as (_ & Hspec & _).
  destruct (Hspec 1 (reserver "B" (Some (NewStatus Error ["disk gone"])))
              (Some (NewStatus Error ["disk gone"]))
              ["A"; "B"] eq_refl eq_refl) as (cause & _ & Hrun).
  - apply Forall_cons_2; [reflexivity|apply Forall_nil_2].
  - reflexivity.
  - exists cause. exact Hrun.
Defined.

End MoreDriverExamples.
